(** * Password-based authenticated-encryption envelope ([crypto.ts])

    A shallow embedding of the envelope codec: option and AAD validation,
    serialization, salt / IV generation, PBKDF2 key derivation, the
    AES-256-GCM seal and open steps, the byte layout
    [salt(64) || iv(12) || tag(16) || ciphertext] and its base64 transport
    encoding, and the four operations returned by [makeCryptoWith].

    Buffers are lists of 8-bit bytes.  A JavaScript string is represented by
    its UTF-8 bytes (a Rocq [string]), so [Buffer.from(s, 'utf8')] is the
    list of its characters; where the runtime reads a string by its UTF-16
    code units (base64 decoding), [code_units] gives them.  Stateful library
    calls (the random source, and
    the order in which crypto, JSON and Buffer are called) are threaded
    through an explicit [World]; thrown exceptions and rejected promises are
    the [inl] results of the monad [M].  The primitives supplied by the
    Node.js runtime (JSON, PBKDF2, the AES-GCM key stream and tag) are the
    fields of the class [NodeRuntime]. *)

From Stdlib Require Import List String Ascii NArith ZArith Arith Bool Lia.
From Stdlib Require Import DecimalString.
From Stdlib Require PrimFloat FloatOps SpecFloat.
Import ListNotations.

Local Open Scope string_scope.
Local Open Scope list_scope.

(** ** Bytes and buffers *)

Definition byte : Type := ascii.
Definition Buffer : Type := list byte.

(** [buf.slice(start, end)] for [0 <= start <= end]; both ends are clamped to
    the length of the buffer. *)
Definition slice (buf : Buffer) (start end_ : nat) : Buffer :=
  firstn (end_ - start) (skipn start buf).

(** [buf.slice(start)]. *)
Definition slice_from (buf : Buffer) (start : nat) : Buffer :=
  skipn start buf.

(** [Buffer.concat(list)]. *)
Definition Buffer_concat (bufs : list Buffer) : Buffer := List.concat bufs.

(** [Buffer.from(s, 'utf8')]: the bytes that represent the string. *)
Definition Buffer_from_utf8 (s : string) : Buffer := list_ascii_of_string s.

(** [buf.toString('utf8')], and the ['utf8'] output of a decipher: the string
    represented by the bytes.  This is the decoded string for well-formed
    UTF-8, which is what [cipher.update(text, 'utf8')] encrypts.  The
    U+FFFD characters that the runtime puts in place of ill-formed sequences
    are not modelled: ill-formed bytes stay as they are, and a statement
    that names the decrypted text is made for well-formed bytes
    ([utf8_wf]). *)
Definition Buffer_toString_utf8 (b : Buffer) : string := string_of_list_ascii b.

Definition xor_byte (a b : byte) : byte :=
  match a, b with
  | Ascii a0 a1 a2 a3 a4 a5 a6 a7, Ascii b0 b1 b2 b3 b4 b5 b6 b7 =>
      Ascii (xorb a0 b0) (xorb a1 b1) (xorb a2 b2) (xorb a3 b3)
            (xorb a4 b4) (xorb a5 b5) (xorb a6 b6) (xorb a7 b7)
  end.

(** XOR of [data] with the key stream [ks], starting at stream offset [i]. *)
Fixpoint xor_stream (ks : nat -> byte) (i : nat) (data : Buffer) : Buffer :=
  match data with
  | [] => []
  | b :: rest => xor_byte b (ks i) :: xor_stream ks (S i) rest
  end.

Fixpoint buffer_eqb (a b : Buffer) : bool :=
  match a, b with
  | [], [] => true
  | x :: a', y :: b' => Ascii.eqb x y && buffer_eqb a' b'
  | _, _ => false
  end.

(** ** JavaScript strings as UTF-16 code units

    A string is a sequence of 16-bit code units.  [code_units] reads them off
    the UTF-8 bytes that represent the string: one unit for a sequence of one,
    two or three bytes, a surrogate pair for a sequence of four.  A byte that
    does not start such a sequence (no string is represented that way) is
    read as the unit of its own value. *)

Definition is_continuation (c : ascii) : bool :=
  (128 <=? N_of_ascii c)%N && (N_of_ascii c <? 192)%N.

(** The six payload bits of a continuation byte. *)
Definition payload (c : ascii) : N := (N_of_ascii c mod 64)%N.

Definition lead_of (lo hi : N) (c : ascii) : bool :=
  (lo <=? N_of_ascii c)%N && (N_of_ascii c <? hi)%N.

Fixpoint utf16_of_utf8 (cs : list ascii) : list N :=
  match cs with
  | [] => []
  | b0 :: r0 =>
      let n0 := N_of_ascii b0 in
      match r0 with
      | b1 :: r1 =>
          if lead_of 192 224 b0 && is_continuation b1
          then ((n0 - 192) * 64 + payload b1)%N :: utf16_of_utf8 r1
          else
            match r1 with
            | b2 :: r2 =>
                if lead_of 224 240 b0 && is_continuation b1 && is_continuation b2
                then ((n0 - 224) * 4096 + payload b1 * 64 + payload b2)%N
                       :: utf16_of_utf8 r2
                else
                  match r2 with
                  | b3 :: r3 =>
                      if lead_of 240 248 b0 && is_continuation b1
                         && is_continuation b2 && is_continuation b3
                      then
                        let cp := ((n0 - 240) * 262144 + payload b1 * 4096
                                   + payload b2 * 64 + payload b3)%N in
                        (55296 + (cp - 65536) / 1024)%N
                          :: (56320 + (cp - 65536) mod 1024)%N
                          :: utf16_of_utf8 r3
                      else n0 :: utf16_of_utf8 r0
                  | [] => n0 :: utf16_of_utf8 r0
                  end
            | [] => n0 :: utf16_of_utf8 r0
            end
      | [] => [n0]
      end
  end.

Definition code_units (s : string) : list N :=
  utf16_of_utf8 (list_ascii_of_string s).

(** The low eight bits of a code unit. *)
Definition low_byte (u : N) : byte := ascii_of_N (u mod 256).

Definition is_ascii (c : ascii) : bool := (N_of_ascii c <? 128)%N.

(** ** Base64 ([buf.toString('base64')] and [Buffer.from(s, 'base64')]) *)

Module Base64.

Definition alphabet : list ascii :=
  list_ascii_of_string
    "ABCDEFGHIJKLMNOPQRSTUVWXYZabcdefghijklmnopqrstuvwxyz0123456789+/".

Definition pad : ascii := "="%char.

Definition char_of_sextet (n : N) : ascii := nth (N.to_nat n) alphabet pad.

Fixpoint index_of (c : ascii) (l : list ascii) (i : N) : option N :=
  match l with
  | [] => None
  | x :: rest => if Ascii.eqb c x then Some i else index_of c rest (N.succ i)
  end.

(** The decoder also reads the URL-safe characters [-] and [_]. *)
Definition unbase64 (c : ascii) : option N :=
  if Ascii.eqb c "-"%char then Some 62%N
  else if Ascii.eqb c "_"%char then Some 63%N
  else index_of c alphabet 0%N.

Definition group24 (a b c : byte) : N :=
  (N_of_ascii a * 65536 + N_of_ascii b * 256 + N_of_ascii c)%N.

Definition sextet0 (n : N) : N := (n / 262144)%N.
Definition sextet1 (n : N) : N := ((n / 4096) mod 64)%N.
Definition sextet2 (n : N) : N := ((n / 64) mod 64)%N.
Definition sextet3 (n : N) : N := (n mod 64)%N.

(** Three bytes give four characters; a final group of one or two bytes is
    zero-filled and padded with [=]. *)
Fixpoint encode_chars (bs : Buffer) : list ascii :=
  match bs with
  | a :: b :: c :: rest =>
      let n := group24 a b c in
      char_of_sextet (sextet0 n) :: char_of_sextet (sextet1 n)
        :: char_of_sextet (sextet2 n) :: char_of_sextet (sextet3 n)
        :: encode_chars rest
  | [a; b] =>
      let n := group24 a b Ascii.zero in
      [char_of_sextet (sextet0 n); char_of_sextet (sextet1 n);
       char_of_sextet (sextet2 n); pad]
  | [a] =>
      let n := group24 a Ascii.zero Ascii.zero in
      [char_of_sextet (sextet0 n); char_of_sextet (sextet1 n); pad; pad]
  | [] => []
  end.

Definition encode (bs : Buffer) : string :=
  string_of_list_ascii (encode_chars bs).

(** The decoder is lenient: characters outside the alphabet are skipped and
    decoding stops at the first [=].  It reads each code unit of the string
    by its low byte, so a character above U+00FF counts as the character its
    low byte stands for. *)
Fixpoint legal_sextets (cs : list ascii) : list N :=
  match cs with
  | [] => []
  | c :: rest =>
      if Ascii.eqb c pad then []
      else match unbase64 c with
           | Some n => n :: legal_sextets rest
           | None => legal_sextets rest
           end
  end.

Definition join24 (s0 s1 s2 s3 : N) : N :=
  (s0 * 262144 + s1 * 4096 + s2 * 64 + s3)%N.

Definition octet0 (n : N) : byte := ascii_of_N (n / 65536).
Definition octet1 (n : N) : byte := ascii_of_N ((n / 256) mod 256).
Definition octet2 (n : N) : byte := ascii_of_N (n mod 256).

Fixpoint decode_sextets (ss : list N) : Buffer :=
  match ss with
  | s0 :: s1 :: s2 :: s3 :: rest =>
      let n := join24 s0 s1 s2 s3 in
      octet0 n :: octet1 n :: octet2 n :: decode_sextets rest
  | [s0; s1; s2] =>
      let n := join24 s0 s1 s2 0 in [octet0 n; octet1 n]
  | [s0; s1] =>
      let n := join24 s0 s1 0 0 in [octet0 n]
  | _ => []
  end.

Definition decode (s : string) : Buffer :=
  decode_sextets (legal_sextets (map low_byte (code_units s))).

End Base64.

(** ** JavaScript values and exceptions *)

#[local] Set Warnings "-register-all".

Inductive JsValue : Type :=
| JsUndefined
| JsNull
| JsBoolean (b : bool)
| JsNumber (x : PrimFloat.float)
| JsString (s : string)
| JsArray (items : list JsValue)
| JsObject (fields : list (string * JsValue))
| JsFunction
| JsBigInt (n : Z).

Inductive exn : Type :=
| Error (message : string)
| TypeError (message : string)
| SyntaxError (message : string).

(** [x == null]. *)
Definition is_nullish (v : JsValue) : bool :=
  match v with
  | JsUndefined | JsNull => true
  | _ => false
  end.

(** [string | Buffer]. *)
Inductive StringOrBuffer : Type :=
| Str (s : string)
| Buf (b : Buffer).

(** [crypto.BinaryLike] arguments are read as bytes; a string by its UTF-8
    encoding. *)
Definition binary_like (x : StringOrBuffer) : Buffer :=
  match x with
  | Str s => Buffer_from_utf8 s
  | Buf b => b
  end.

(** ** The world: random source and call trace *)

Inductive Event : Type :=
| RandomBytes (size : nat)
| Pbkdf2Sync (password salt : Buffer)
| Pbkdf2 (password salt : Buffer)
| CreateCipheriv (key iv : Buffer)
| CreateDecipheriv (key iv : Buffer)
| JsonStringify
| JsonParse
| BufferFromBase64.

Record World : Type := mkWorld {
  entropy : nat -> byte;       (* the system random source, as a stream *)
  consumed : nat;              (* how many of its bytes have been drawn *)
  trace : list Event           (* library calls made so far, oldest first *)
}.

Definition M (A : Type) : Type := World -> (exn + A) * World.

Definition ret {A} (a : A) : M A := fun w => (inr a, w).
Definition throw {A} (e : exn) : M A := fun w => (inl e, w).
Definition bind {A B} (m : M A) (k : A -> M B) : M B :=
  fun w => match m w with
           | (inr a, w') => k a w'
           | (inl e, w') => (inl e, w')
           end.
Definition lift {A} (r : exn + A) : M A := fun w => (r, w).
Definition log (ev : Event) : M unit :=
  fun w => (inr tt, mkWorld (entropy w) (consumed w) (trace w ++ [ev])).

Notation "x <- m ;; k" := (bind m (fun x => k))
  (at level 61, m at next level, right associativity).
Notation "m ;;; k" := (bind m (fun _ => k))
  (at level 61, right associativity).

(** The next [n] bytes of the random source, [off] bytes ahead. *)
Definition upcoming (w : World) (off n : nat) : Buffer :=
  map (entropy w) (seq (consumed w + off) n).

(** [crypto.randomBytes(size)]. *)
Definition crypto_randomBytes (size : nat) : M Buffer :=
  fun w => (inr (upcoming w 0 size),
            mkWorld (entropy w) (consumed w + size)
                    (trace w ++ [RandomBytes size])).

(** ** Runtime primitives *)

Class NodeRuntime : Type := {
  (** [JSON.stringify(v)]: the text, [None] for the result [undefined], or
      the exception it throws (a [TypeError] for a BigInt or a circular
      structure, or whatever a [toJSON] method throws). *)
  JSON_stringify : JsValue -> exn + option string;
  (** [JSON.parse(s)]. *)
  JSON_parse : string -> exn + JsValue;
  (** [crypto.pbkdf2Sync(password, salt, iterations, keylen, digest)]. *)
  crypto_pbkdf2Sync : Buffer -> Buffer -> N -> nat -> string -> Buffer;
  (** [crypto.pbkdf2(...)]: the [(err, key)] pair handed to the callback. *)
  crypto_pbkdf2 : Buffer -> Buffer -> N -> nat -> string -> exn + Buffer;
  (** Byte [i] of the AES-256 counter-mode key stream for [key] and [iv]. *)
  gcm_keystream : Buffer -> Buffer -> nat -> byte;
  (** The GCM tag of [key], [iv], associated data and ciphertext. *)
  gcm_tag : Buffer -> Buffer -> Buffer -> Buffer -> Buffer;
  (** IV lengths accepted by [createCipheriv] / [createDecipheriv]. *)
  gcm_iv_length_ok : nat -> bool;
  (** Tag lengths accepted by [decipher.setAuthTag]. *)
  gcm_tag_length_ok : nat -> bool
}.

(** ** [crypto.ts] *)

Definition IV_LENGTH_IN_BYTES : nat := 12.
Definition SALT_LENGTH_IN_BYTES : nat := 64.
Definition KEY_LENGTH_IN_BYTES : nat := 32.
Definition KEY_ITERATIONS : N := 10000%N.
Definition KEY_DIGEST : string := "sha512".
Definition CIPHER_ALGORITHM : string := "aes-256-gcm".
Definition ENCRYPTION_RESULT_ENCODING : string := "base64".

(** [interface CryptoOptions]; [None] is an options object without the
    property. *)
Record CryptoOptions : Type := {
  encryptionKey : option StringOrBuffer
}.

(** [interface Crypto]: the four operations of a codec.  A promise is
    represented by the result it settles with. *)
Module Crypto.
Record t : Type := {
  encrypt : JsValue -> JsValue -> M string;
  decrypt : StringOrBuffer -> JsValue -> M JsValue;
  encryptSync : JsValue -> JsValue -> M string;
  decryptSync : StringOrBuffer -> JsValue -> M JsValue
}.
End Crypto.

(** JavaScript truthiness of an [encryptionKey]: [undefined] and the empty
    string are falsy, every other string and every Buffer (an object) is
    truthy. *)
Definition truthy (k : option StringOrBuffer) : bool :=
  match k with
  | None => false
  | Some (Str s) => negb (String.eqb s EmptyString)
  | Some (Buf _) => true
  end.

Definition _validateOpts (opts : CryptoOptions) : exn + unit :=
  if negb (truthy (encryptionKey opts))
  then inl (Error "encryptionKey is required")
  else inr tt.

Definition _validateAAD (aad : JsValue) : exn + unit :=
  if is_nullish aad then inr tt
  else match aad with
       | JsString s =>
           if Nat.eqb (String.length s) 0
           then inl (Error "AAD cannot be an empty string")
           else inr tt
       | _ => inl (Error "AAD must be a string")
       end.

Definition _generateSalt : M Buffer := crypto_randomBytes SALT_LENGTH_IN_BYTES.

Definition _generateIV : M Buffer := crypto_randomBytes IV_LENGTH_IN_BYTES.

(** [Buffer.from(s, 'base64')]. *)
Definition Buffer_from_base64 (s : string) : M Buffer :=
  log BufferFromBase64 ;;; ret (Base64.decode s).

(** [Buffer.from(aad, 'utf8')]: a [TypeError] for anything but a string. *)
Definition Buffer_from_aad (aad : JsValue) : M Buffer :=
  match aad with
  | JsString s => ret (Buffer_from_utf8 s)
  | _ => throw (TypeError "The first argument must be one of type string, Buffer, ArrayBuffer, Array, or Array-like Object")
  end.

(** GCM cipher objects.  [cipher_aad] is empty until [setAAD] is called;
    [cipher_text] is the ciphertext produced so far. *)
Record Cipher : Type := mkCipher {
  cipher_key : Buffer;
  cipher_iv : Buffer;
  cipher_aad : Buffer;
  cipher_text : Buffer
}.

(** [decipher_tag] is [None] until [setAuthTag] is called; [decipher_text] is
    the ciphertext consumed so far. *)
Record Decipher : Type := mkDecipher {
  decipher_key : Buffer;
  decipher_iv : Buffer;
  decipher_aad : Buffer;
  decipher_tag : option Buffer;
  decipher_text : Buffer
}.

Definition AUTH_FAILURE : string :=
  "Unsupported state or unable to authenticate data".

Section Codec.

Context {node : NodeRuntime}.

(** [crypto.createCipheriv(algorithm, key, iv)] for AES-256-GCM. *)
Definition createCipheriv (algorithm : string) (key iv : Buffer) : M Cipher :=
  log (CreateCipheriv key iv) ;;;
  if negb (Nat.eqb (List.length key) KEY_LENGTH_IN_BYTES) then throw (Error "Invalid key length")
  else if negb (gcm_iv_length_ok (List.length iv)) then throw (Error "Invalid IV length")
  else ret (mkCipher key iv [] []).

Definition cipher_setAAD (c : Cipher) (aad : Buffer) : Cipher :=
  mkCipher (cipher_key c) (cipher_iv c) aad (cipher_text c).

(** [cipher.update(data, 'utf8')]: the new cipher state and the ciphertext
    bytes for [data]. *)
Definition cipher_update (c : Cipher) (data : string) : Cipher * Buffer :=
  let out := xor_stream (gcm_keystream (cipher_key c) (cipher_iv c))
                        (List.length (cipher_text c)) (Buffer_from_utf8 data) in
  (mkCipher (cipher_key c) (cipher_iv c) (cipher_aad c) (cipher_text c ++ out),
   out).

(** [cipher.final()]: GCM holds back no bytes. *)
Definition cipher_final (c : Cipher) : Buffer := [].

Definition cipher_getAuthTag (c : Cipher) : Buffer :=
  gcm_tag (cipher_key c) (cipher_iv c) (cipher_aad c) (cipher_text c).

(** [crypto.createDecipheriv(algorithm, key, iv)]. *)
Definition createDecipheriv (algorithm : string) (key iv : Buffer) : M Decipher :=
  log (CreateDecipheriv key iv) ;;;
  if negb (Nat.eqb (List.length key) KEY_LENGTH_IN_BYTES) then throw (Error "Invalid key length")
  else if negb (gcm_iv_length_ok (List.length iv)) then throw (Error "Invalid IV length")
  else ret (mkDecipher key iv [] None []).

Definition decipher_setAuthTag (d : Decipher) (tag : Buffer) : M Decipher :=
  if gcm_tag_length_ok (List.length tag)
  then ret (mkDecipher (decipher_key d) (decipher_iv d) (decipher_aad d)
                       (Some tag) (decipher_text d))
  else throw (Error "Invalid authentication tag length").

Definition decipher_setAAD (d : Decipher) (aad : Buffer) : Decipher :=
  mkDecipher (decipher_key d) (decipher_iv d) aad (decipher_tag d)
             (decipher_text d).

(** [decipher.update(data, undefined, 'utf8')]: the new state and the
    decrypted text. *)
Definition decipher_update (d : Decipher) (data : Buffer) : Decipher * string :=
  let out := xor_stream (gcm_keystream (decipher_key d) (decipher_iv d))
                        (List.length (decipher_text d)) data in
  (mkDecipher (decipher_key d) (decipher_iv d) (decipher_aad d)
              (decipher_tag d) (decipher_text d ++ data),
   Buffer_toString_utf8 out).

(** The tag check of [decipher.final]: the expected tag is non-empty and
    equals the leading bytes of the tag recomputed over key, IV, associated
    data and the ciphertext consumed. *)
Definition tag_matches (d : Decipher) : bool :=
  match decipher_tag d with
  | None => false
  | Some tag =>
      Nat.leb 1 (List.length tag) &&
      buffer_eqb tag
        (firstn (List.length tag)
           (gcm_tag (decipher_key d) (decipher_iv d) (decipher_aad d)
                    (decipher_text d)))
  end.

(** [decipher.final('utf8')]. *)
Definition decipher_final (d : Decipher) : M string :=
  if tag_matches d then ret EmptyString else throw (Error AUTH_FAILURE).

(** [crypto.pbkdf2Sync] returns a Buffer, so the branch that re-wraps a
    non-Buffer key is never taken. *)
Definition _generateKeySync (encryptionKey : StringOrBuffer)
                            (salt : StringOrBuffer) : M Buffer :=
  salt <- match salt with
          | Buf b => ret b
          | Str s => Buffer_from_base64 s
          end ;;
  log (Pbkdf2Sync (binary_like encryptionKey) salt) ;;;
  ret (crypto_pbkdf2Sync (binary_like encryptionKey) salt
         KEY_ITERATIONS KEY_LENGTH_IN_BYTES KEY_DIGEST).

(** The promise settles with the key, or with the error handed to the
    callback. *)
Definition _generateKey (encryptionKey : StringOrBuffer)
                        (salt : StringOrBuffer) : M Buffer :=
  salt <- match salt with
          | Buf b => ret b
          | Str s => Buffer_from_base64 s
          end ;;
  log (Pbkdf2 (binary_like encryptionKey) salt) ;;;
  lift (crypto_pbkdf2 (binary_like encryptionKey) salt
          KEY_ITERATIONS KEY_LENGTH_IN_BYTES KEY_DIGEST).

Definition _serialize (serializable : JsValue) : M string :=
  log JsonStringify ;;;
  serializedObj <- lift (JSON_stringify serializable) ;;
  match serializedObj with
  | None => throw (Error "Object to be encrypted must be serializable")
  | Some serializedObj => ret serializedObj
  end.

Definition encrypt (serializedInput : string) (iv key salt : Buffer)
                   (aad : JsValue) : M string :=
  cipher <- createCipheriv CIPHER_ALGORITHM key iv ;;
  cipher <- (if negb (is_nullish aad)
             then (a <- Buffer_from_aad aad ;; ret (cipher_setAAD cipher a))
             else ret cipher) ;;
  let (cipher, head) := cipher_update cipher serializedInput in
  let encrypted := Buffer_concat [head; cipher_final cipher] in
  let tag := cipher_getAuthTag cipher in
  ret (Base64.encode (Buffer_concat [salt; iv; tag; encrypted])).

(** The body of [decrypt] once [iv], [tag] and [text] have been sliced out of
    the envelope. *)
Definition decrypt_parts (key iv tag text : Buffer) (aad : JsValue) : M JsValue :=
  decipher <- createDecipheriv CIPHER_ALGORITHM key iv ;;
  decipher <- decipher_setAuthTag decipher tag ;;
  decipher <- (if negb (is_nullish aad)
               then (a <- Buffer_from_aad aad ;; ret (decipher_setAAD decipher a))
               else ret decipher) ;;
  let (decipher, head) := decipher_update decipher text in
  tail <- decipher_final decipher ;;
  log JsonParse ;;;
  lift (JSON_parse (head ++ tail)).

Definition decrypt (key outputBytes : Buffer) (aad : JsValue) : M JsValue :=
  let iv := slice outputBytes SALT_LENGTH_IN_BYTES
                  (SALT_LENGTH_IN_BYTES + IV_LENGTH_IN_BYTES) in
  let tag := slice outputBytes (SALT_LENGTH_IN_BYTES + IV_LENGTH_IN_BYTES)
                   (SALT_LENGTH_IN_BYTES + IV_LENGTH_IN_BYTES + 16) in
  let text := slice_from outputBytes
                         (SALT_LENGTH_IN_BYTES + IV_LENGTH_IN_BYTES + 16) in
  decrypt_parts key iv tag text aad.

Definition asBuffer (encryptedOutput : StringOrBuffer) : M Buffer :=
  match encryptedOutput with
  | Buf b => ret b
  | Str s => Buffer_from_base64 s
  end.

(** The four methods of the object returned by [makeCryptoWith], closed
    over [encryptionKey].  First the asynchronous [encrypt]. *)
Definition codec_encrypt (encryptionKey : StringOrBuffer)
                         (input aad : JsValue) : M string :=
  lift (_validateAAD aad) ;;;
  salt <- _generateSalt ;;
  serializedInput <- _serialize input ;;
  iv <- _generateIV ;;
  key <- _generateKey encryptionKey (Buf salt) ;;
  encrypt serializedInput iv key salt aad.

(** The asynchronous [decrypt]. *)
Definition codec_decrypt (encryptionKey : StringOrBuffer)
                         (encryptedOutput : StringOrBuffer)
                         (aad : JsValue) : M JsValue :=
  lift (_validateAAD aad) ;;;
  outputBytes <- asBuffer encryptedOutput ;;
  let salt := slice outputBytes 0 SALT_LENGTH_IN_BYTES in
  key <- _generateKey encryptionKey (Buf salt) ;;
  decrypt key outputBytes aad.

(** [encryptSync]. *)
Definition codec_encryptSync (encryptionKey : StringOrBuffer)
                             (input aad : JsValue) : M string :=
  lift (_validateAAD aad) ;;;
  serializedInput <- _serialize input ;;
  iv <- _generateIV ;;
  salt <- _generateSalt ;;
  key <- _generateKeySync encryptionKey (Buf salt) ;;
  encrypt serializedInput iv key salt aad.

(** Modelled from the spec: the closing statement of [decryptSync], which the
    listing of the module stops short of (it ends after the key derivation).
    The orchestration rule "derive key (sync or async) -> open ->
    deserialize plaintext -> return value" gives it as the call
    [decrypt(key, outputBytes, aad)] that also ends the asynchronous
    [decrypt]. *)
Definition codec_decryptSync (encryptionKey : StringOrBuffer)
                             (encryptedOutput : StringOrBuffer)
                             (aad : JsValue) : M JsValue :=
  lift (_validateAAD aad) ;;;
  outputBytes <- asBuffer encryptedOutput ;;
  let salt := slice outputBytes 0 SALT_LENGTH_IN_BYTES in
  key <- _generateKeySync encryptionKey (Buf salt) ;;
  decrypt key outputBytes aad.

Definition makeCryptoWith (opts : CryptoOptions) : exn + Crypto.t :=
  match _validateOpts opts, encryptionKey opts with
  | inl e, _ => inl e
  | inr _, Some encryptionKey =>
      inr {| Crypto.encrypt := codec_encrypt encryptionKey;
             Crypto.decrypt := codec_decrypt encryptionKey;
             Crypto.encryptSync := codec_encryptSync encryptionKey;
             Crypto.decryptSync := codec_decryptSync encryptionKey |}
  | inr _, None =>
      (* not reached: [_validateOpts] throws when the key is missing *)
      inl (TypeError "encryptionKey is undefined")
  end.

End Codec.

(** ** Notions used in the statements *)

(** An AAD that passes validation: absent, [null], or a non-empty string. *)
Definition valid_aad (aad : JsValue) : bool :=
  match aad with
  | JsUndefined | JsNull => true
  | JsString s => negb (String.eqb s EmptyString)
  | _ => false
  end.

(** The associated data the cipher is given: none unless [aad] is a string. *)
Definition aad_bytes (aad : JsValue) : Buffer :=
  match aad with
  | JsString s => Buffer_from_utf8 s
  | _ => []
  end.

(** Well-formed UTF-8: the byte sequences of the Unicode scalar values (no
    overlong forms, no surrogates, nothing above U+10FFFF). *)
Definition in_range (lo hi : N) (c : ascii) : bool :=
  (lo <=? N_of_ascii c)%N && (N_of_ascii c <=? hi)%N.

Fixpoint utf8_wf (bs : list ascii) : bool :=
  match bs with
  | [] => true
  | b0 :: r0 =>
      if is_ascii b0 then utf8_wf r0
      else
        match r0 with
        | b1 :: r1 =>
            if in_range 194 223 b0 then in_range 128 191 b1 && utf8_wf r1
            else
              match r1 with
              | b2 :: r2 =>
                  if in_range 224 239 b0 then
                    in_range (if in_range 224 224 b0 then 160 else 128)
                             (if in_range 237 237 b0 then 159 else 191) b1
                    && in_range 128 191 b2 && utf8_wf r2
                  else
                    match r2 with
                    | b3 :: r3 =>
                        in_range 240 244 b0
                        && in_range (if in_range 240 240 b0 then 144 else 128)
                                    (if in_range 244 244 b0 then 143 else 191) b1
                        && in_range 128 191 b2 && in_range 128 191 b3
                        && utf8_wf r3
                    | [] => false
                    end
              | [] => false
              end
        | [] => false
        end
  end.

(** The byte form of an envelope handed to [decrypt]. *)
Definition decoded (encryptedOutput : StringOrBuffer) : Buffer :=
  match encryptedOutput with
  | Buf b => b
  | Str s => Base64.decode s
  end.


(** A passphrase that is missing, or empty as a string or as a byte sequence. *)
Definition missing_or_empty (k : option StringOrBuffer) : bool :=
  match k with
  | None => true
  | Some (Str s) => String.eqb s EmptyString
  | Some (Buf b) => Nat.eqb (List.length b) 0
  end.

(** The world [w] after the library calls [evs], with no randomness drawn. *)
Definition after (w : World) (evs : list Event) : World :=
  mkWorld (entropy w) (consumed w) (trace w ++ evs).

(** A computation whose result does not depend on the world and that draws
    no randomness: it only appends a fixed list of calls to the trace. *)
Definition world_independent {A} (m : M A) : Prop :=
  exists (r : exn + A) (evs : list Event), forall w, m w = (r, after w evs).

Section Envelope.

Context {node : NodeRuntime}.

(** The key both derivation entry points are asked for. *)
Definition derive (encryptionKey : StringOrBuffer) (salt : Buffer) : Buffer :=
  crypto_pbkdf2Sync (binary_like encryptionKey) salt
    KEY_ITERATIONS KEY_LENGTH_IN_BYTES KEY_DIGEST.

Definition ciphertext (key iv : Buffer) (serializedInput : string) : Buffer :=
  xor_stream (gcm_keystream key iv) 0 (Buffer_from_utf8 serializedInput).

(** [salt || iv || tag || ciphertext] for the given salt, IV and key. *)
Definition envelope (key iv salt : Buffer) (aad : JsValue)
                    (serializedInput : string) : Buffer :=
  salt ++ iv
       ++ gcm_tag key iv (aad_bytes aad) (ciphertext key iv serializedInput)
       ++ ciphertext key iv serializedInput.

(** A serializable value: one of the JSON data model, which [JSON.stringify]
    writes as a text that [JSON.parse] reads back as the same value. *)
Definition serializable (v : JsValue) : Prop :=
  exists s, JSON_stringify v = inr (Some s) /\ JSON_parse s = inr v.

(** The tag the decipher recomputes for the envelope bytes [b]: over the key
    derived from the stored salt, the stored IV, the AAD supplied to
    [decrypt] and the stored ciphertext. *)
Definition recomputed_tag (encryptionKey : StringOrBuffer) (b : Buffer)
                          (aad : JsValue) : Buffer :=
  gcm_tag (derive encryptionKey (slice b 0 64)) (slice b 64 76)
          (aad_bytes aad) (slice_from b 92).

End Envelope.

(** ** An executable runtime

    A small stand-in for the Node.js primitives, used to run the codec on
    concrete inputs.  Its JSON reads and prints null, booleans, integers,
    strings, arrays and objects; its key derivation, key stream and tag are
    simple checksums of the right shape (not AES or SHA-512). *)

Module Sim.

Definition mix (b : Buffer) : N :=
  fold_left (fun acc c => ((acc * 31 + N_of_ascii c + 7) mod 4294967296)%N)
            b 17%N.

Definition pbkdf2Sync (password salt : Buffer) (iterations : N)
                      (keylen : nat) (digest : string) : Buffer :=
  map (fun i => ascii_of_N
                  ((mix (password ++ salt) * (N.of_nat i + 3) + iterations)
                     mod 256)%N)
      (seq 0 keylen).

Definition pbkdf2 (password salt : Buffer) (iterations : N)
                  (keylen : nat) (digest : string) : exn + Buffer :=
  inr (pbkdf2Sync password salt iterations keylen digest).

Definition keystream (key iv : Buffer) (i : nat) : byte :=
  ascii_of_N ((mix (key ++ iv) + 131 * N.of_nat i) mod 256)%N.

Definition tag (key iv aad text : Buffer) : Buffer :=
  map (fun j => ascii_of_N
                  ((mix (key ++ iv ++ aad ++ text) / (N.of_nat j + 1)
                    + N.of_nat (List.length aad)) mod 256)%N)
      (seq 0 16).

Definition iv_length_ok (n : nat) : bool := Nat.leb 1 n.

Definition tag_length_ok (n : nat) : bool :=
  existsb (Nat.eqb n) [4; 8; 12; 13; 14; 15; 16].

(** *** Printing *)

Definition quote : ascii := ascii_of_N 34.
Definition backslash : ascii := ascii_of_N 92.

Fixpoint escape (cs : list ascii) : list ascii :=
  match cs with
  | [] => []
  | c :: rest =>
      if Ascii.eqb c quote || Ascii.eqb c backslash
      then backslash :: c :: escape rest
      else c :: escape rest
  end.

Definition quoted (s : string) : string :=
  string_of_list_ascii (quote :: escape (list_ascii_of_string s) ++ [quote]).

(** The integer a double stands for, if it is one. *)
Definition integer_of_float (x : PrimFloat.float) : option Z :=
  match FloatOps.Prim2SF x with
  | SpecFloat.S754_zero _ => Some 0%Z
  | SpecFloat.S754_finite sign m e =>
      let z := if (0 <=? e)%Z then (Zpos m * 2 ^ e)%Z
               else (Zpos m / 2 ^ (- e))%Z in
      if (0 <=? e)%Z || (Zpos m mod 2 ^ (- e) =? 0)%Z
      then Some (if sign then (- z)%Z else z)
      else None
  | _ => None
  end.

Definition float_of_integer (z : Z) : PrimFloat.float :=
  FloatOps.SF2Prim
    (SpecFloat.binary_normalize FloatOps.prec FloatOps.emax z 0 false).

(** [NaN] and the infinities print as [null]; fractions are not printed. *)
Definition stringify_number (x : PrimFloat.float) : option string :=
  match FloatOps.Prim2SF x with
  | SpecFloat.S754_nan | SpecFloat.S754_infinity _ => Some "null"
  | _ => option_map (fun z => NilZero.string_of_int (Z.to_int z))
                    (integer_of_float x)
  end.

Fixpoint join (sep : string) (parts : list string) : string :=
  match parts with
  | [] => EmptyString
  | [p] => p
  | p :: rest => (p ++ sep ++ join sep rest)%string
  end.

(** The results of a list of calls, or the first exception among them. *)
Fixpoint collect {A} (rs : list (exn + A)) : exn + list A :=
  match rs with
  | [] => inr []
  | inl e :: _ => inl e
  | inr a :: rest =>
      match collect rest with
      | inl e => inl e
      | inr l => inr (a :: l)
      end
  end.

(** [undefined] and functions have no text; inside an array they print as
    [null] and inside an object their property is left out.  A BigInt, at
    any depth, makes the call throw. *)
Fixpoint stringify (v : JsValue) : exn + option string :=
  match v with
  | JsUndefined | JsFunction => inr None
  | JsBigInt _ => inl (TypeError "Do not know how to serialize a BigInt")
  | JsNull => inr (Some "null")
  | JsBoolean b => inr (Some (if b then "true" else "false"))
  | JsNumber x => inr (stringify_number x)
  | JsString s => inr (Some (quoted s))
  | JsArray items =>
      match collect (map stringify items) with
      | inl e => inl e
      | inr texts =>
          inr (Some ("[" ++ join ","
                       (map (fun t => match t with
                                      | Some t => t
                                      | None => "null"
                                      end) texts) ++ "]")%string)
      end
  | JsObject fields =>
      match collect (map (fun f => stringify (snd f)) fields) with
      | inl e => inl e
      | inr texts =>
          inr (Some ("{" ++ join ","
                       (flat_map (fun kt => match snd kt with
                                            | Some t => [quoted (fst kt) ++ ":" ++ t]
                                            | None => []
                                            end)
                                 (combine (map fst fields) texts)) ++ "}")%string)
      end
  end.

(** *** Reading *)

Fixpoint strip (p cs : list ascii) : option (list ascii) :=
  match p, cs with
  | [], _ => Some cs
  | a :: p', c :: cs' => if Ascii.eqb a c then strip p' cs' else None
  | _ :: _, [] => None
  end.

Fixpoint read_string (cs acc : list ascii) : option (string * list ascii) :=
  match cs with
  | [] => None
  | c :: rest =>
      if Ascii.eqb c quote then Some (string_of_list_ascii (rev acc), rest)
      else if Ascii.eqb c backslash then
        match rest with
        | e :: rest' => read_string rest' (e :: acc)
        | [] => None
        end
      else read_string rest (c :: acc)
  end.

Definition is_digit (c : ascii) : bool :=
  Ascii.leb "0"%char c && Ascii.leb c "9"%char.

Fixpoint span_number (cs : list ascii) : list ascii * list ascii :=
  match cs with
  | c :: rest =>
      if is_digit c || Ascii.eqb c "-"%char
      then let (d, r) := span_number rest in (c :: d, r)
      else ([], cs)
  | [] => ([], [])
  end.

Definition read_number (cs : list ascii) : option (JsValue * list ascii) :=
  let (d, rest) := span_number cs in
  match NilZero.int_of_string (string_of_list_ascii d) with
  | Some i => Some (JsNumber (float_of_integer (Z.of_int i)), rest)
  | None => None
  end.

Section Items.
Variable read : list ascii -> option (JsValue * list ascii).

Fixpoint read_items (n : nat) (cs : list ascii) (acc : list JsValue)
  : option (list JsValue * list ascii) :=
  match n with
  | O => None
  | S n' =>
      match read cs with
      | Some (v, c :: rest) =>
          if Ascii.eqb c ","%char then read_items n' rest (v :: acc)
          else if Ascii.eqb c "]"%char then Some (rev (v :: acc), rest)
          else None
      | _ => None
      end
  end.

Fixpoint read_fields (n : nat) (cs : list ascii)
                     (acc : list (string * JsValue))
  : option (list (string * JsValue) * list ascii) :=
  match n with
  | O => None
  | S n' =>
      match strip [quote] cs with
      | Some cs1 =>
          match read_string cs1 [] with
          | Some (k, cs2) =>
              match strip [":"%char] cs2 with
              | Some cs3 =>
                  match read cs3 with
                  | Some (v, c :: rest) =>
                      if Ascii.eqb c ","%char
                      then read_fields n' rest ((k, v) :: acc)
                      else if Ascii.eqb c "}"%char
                      then Some (rev ((k, v) :: acc), rest)
                      else None
                  | _ => None
                  end
              | None => None
              end
          | None => None
          end
      | None => None
      end
  end.
End Items.

Fixpoint read_value (fuel : nat) (cs : list ascii)
  : option (JsValue * list ascii) :=
  match fuel with
  | O => None
  | S fuel' =>
      match cs with
      | [] => None
      | c :: rest =>
          if Ascii.eqb c quote then
            match read_string rest [] with
            | Some (s, r) => Some (JsString s, r)
            | None => None
            end
          else if Ascii.eqb c "["%char then
            match strip ["]"%char] rest with
            | Some r => Some (JsArray [], r)
            | None =>
                match read_items (read_value fuel') (List.length rest) rest [] with
                | Some (items, r) => Some (JsArray items, r)
                | None => None
                end
            end
          else if Ascii.eqb c "{"%char then
            match strip ["}"%char] rest with
            | Some r => Some (JsObject [], r)
            | None =>
                match read_fields (read_value fuel') (List.length rest) rest [] with
                | Some (fields, r) => Some (JsObject fields, r)
                | None => None
                end
            end
          else
            match strip (list_ascii_of_string "null") cs,
                  strip (list_ascii_of_string "true") cs,
                  strip (list_ascii_of_string "false") cs with
            | Some r, _, _ => Some (JsNull, r)
            | _, Some r, _ => Some (JsBoolean true, r)
            | _, _, Some r => Some (JsBoolean false, r)
            | _, _, _ => read_number cs
            end
      end
  end.

Definition parse (s : string) : exn + JsValue :=
  match list_ascii_of_string s with
  | [] => inl (SyntaxError "Unexpected end of JSON input")
  | cs =>
      match read_value (S (List.length cs)) cs with
      | Some (v, []) => inr v
      | _ => inl (SyntaxError "Unexpected token in JSON")
      end
  end.

Definition runtime : NodeRuntime := {|
  JSON_stringify := stringify;
  JSON_parse := parse;
  crypto_pbkdf2Sync := pbkdf2Sync;
  crypto_pbkdf2 := pbkdf2;
  gcm_keystream := keystream;
  gcm_tag := tag;
  gcm_iv_length_ok := iv_length_ok;
  gcm_tag_length_ok := tag_length_ok
|}.

(** A random source and an initial world. *)
Definition dice (i : nat) : byte := ascii_of_N ((N.of_nat i * 37 + 11) mod 256)%N.
Definition world0 : World := mkWorld dice 0 [].

(** *** A test vector: passphrase, value, AAD and the envelopes they give *)

Definition passphrase : StringOrBuffer := Str "correct horse battery staple".

Definition opts : CryptoOptions := {| encryptionKey := Some passphrase |}.

Definition codec : Crypto.t :=
  {| Crypto.encrypt := codec_encrypt (node := runtime) passphrase;
     Crypto.decrypt := codec_decrypt (node := runtime) passphrase;
     Crypto.encryptSync := codec_encryptSync (node := runtime) passphrase;
     Crypto.decryptSync := codec_decryptSync (node := runtime) passphrase |}.

(** The object with [id] 1 and [tags] a, b. *)
Definition doc : JsValue :=
  JsObject [("id", JsNumber (float_of_integer 1));
            ("tags", JsArray [JsString "a"; JsString "b"])].

Definition doc_text : string :=
  match stringify doc with inr (Some s) => s | _ => EmptyString end.

Definition ctx1 : JsValue := JsString "ctx1".

Definition text_of (r : exn + string) : string :=
  match r with inr e => e | inl _ => EmptyString end.

Definition sealed : string :=
  text_of (fst (Crypto.encrypt codec doc ctx1 world0)).

(** A world whose random source yields first the IV and then the salt that
    [world0] yields as salt and then IV. *)
Definition worldSync : World :=
  mkWorld (fun i => if Nat.ltb i 12 then dice (64 + i) else dice (i - 12)) 0 [].

(** An input of 80 bytes: a salt, an IV and the first four bytes of the tag
    of the empty ciphertext under the key derived from that salt. *)
Definition truncated : Buffer :=
  let salt := map dice (seq 0 64) in
  let iv := map dice (seq 64 12) in
  let key := pbkdf2Sync (binary_like passphrase) salt
               KEY_ITERATIONS KEY_LENGTH_IN_BYTES KEY_DIGEST in
  salt ++ iv ++ firstn 4 (tag key iv [] []).

(** *** A runtime whose asynchronous key derivation fails *)

Definition pbkdf2_failure : exn := Error "pbkdf2 failed".

Definition failing : NodeRuntime := {|
  JSON_stringify := stringify;
  JSON_parse := parse;
  crypto_pbkdf2Sync := pbkdf2Sync;
  crypto_pbkdf2 := fun _ _ _ _ _ => inl pbkdf2_failure;
  gcm_keystream := keystream;
  gcm_tag := tag;
  gcm_iv_length_ok := iv_length_ok;
  gcm_tag_length_ok := tag_length_ok
|}.

Definition failingCodec : Crypto.t :=
  {| Crypto.encrypt := codec_encrypt (node := failing) passphrase;
     Crypto.decrypt := codec_decrypt (node := failing) passphrase;
     Crypto.encryptSync := codec_encryptSync (node := failing) passphrase;
     Crypto.decryptSync := codec_decryptSync (node := failing) passphrase |}.

End Sim.

(** * Properties *)

Local Open Scope nat_scope.

(** ** Lists, bytes and buffers *)

Lemma firstn_app_exact {A} (a b : list A) (n : nat) :
  List.length a = n -> firstn n (a ++ b) = a.
Proof.
  intros <-. rewrite firstn_app, Nat.sub_diag, firstn_all. simpl.
  apply app_nil_r.
Qed.

Lemma skipn_app_exact {A} (a b : list A) (n : nat) :
  List.length a = n -> skipn n (a ++ b) = b.
Proof.
  intros <-. rewrite skipn_app, Nat.sub_diag, skipn_all. reflexivity.
Qed.

Lemma xor_byte_involutive (a k : byte) : xor_byte (xor_byte a k) k = a.
Proof.
  destruct a, k; simpl.
  repeat rewrite xorb_assoc, xorb_nilpotent, xorb_false_r. reflexivity.
Qed.

Lemma xor_stream_involutive (ks : nat -> byte) (data : Buffer) :
  forall i, xor_stream ks i (xor_stream ks i data) = data.
Proof.
  induction data as [|b rest IH]; intros i; simpl.
  - reflexivity.
  - now rewrite xor_byte_involutive, IH.
Qed.

Lemma xor_stream_length (ks : nat -> byte) (data : Buffer) :
  forall i, List.length (xor_stream ks i data) = List.length data.
Proof.
  induction data as [|b rest IH]; intros i; simpl; [reflexivity|].
  now rewrite IH.
Qed.

Lemma buffer_eqb_eq (a : Buffer) : forall b, buffer_eqb a b = true <-> a = b.
Proof.
  induction a as [|x a IH]; intros [|y b]; simpl; split; intros H;
    try reflexivity; try discriminate.
  - apply andb_true_iff in H as [Hx Hr].
    apply Ascii.eqb_eq in Hx. apply IH in Hr. now subst.
  - injection H as -> ->. rewrite Ascii.eqb_refl. simpl. now apply IH.
Qed.

Lemma buffer_eqb_refl (a : Buffer) : buffer_eqb a a = true.
Proof. now apply buffer_eqb_eq. Qed.

Lemma buffer_eqb_neq (a b : Buffer) : a <> b -> buffer_eqb a b = false.
Proof.
  intros H. destruct (buffer_eqb a b) eqn:E; [|reflexivity].
  apply buffer_eqb_eq in E. contradiction.
Qed.


Lemma upcoming_length (w : World) (off n : nat) :
  List.length (upcoming w off n) = n.
Proof. unfold upcoming. now rewrite length_map, length_seq. Qed.

(** ** Code units of plain text *)

Lemma utf16_of_utf8_plain (b0 : ascii) (r0 : list ascii) :
  is_ascii b0 = true ->
  utf16_of_utf8 (b0 :: r0) = N_of_ascii b0 :: utf16_of_utf8 r0.
Proof.
  intros H. unfold is_ascii in H. apply N.ltb_lt in H.
  assert (L1 : lead_of 192 224 b0 = false).
  { unfold lead_of. apply andb_false_iff. left. apply N.leb_gt. lia. }
  assert (L2 : lead_of 224 240 b0 = false).
  { unfold lead_of. apply andb_false_iff. left. apply N.leb_gt. lia. }
  assert (L3 : lead_of 240 248 b0 = false).
  { unfold lead_of. apply andb_false_iff. left. apply N.leb_gt. lia. }
  destruct r0 as [|b1 [|b2 [|b3 r3]]]; cbn [utf16_of_utf8];
    rewrite ?L1, ?L2, ?L3; reflexivity.
Qed.

Lemma low_byte_of_ascii (c : ascii) : low_byte (N_of_ascii c) = c.
Proof.
  unfold low_byte. rewrite N.mod_small by apply N_ascii_bounded.
  apply ascii_N_embedding.
Qed.

(** A text of ASCII characters has one code unit per character, the
    character itself. *)
Lemma low_bytes_ascii (cs : list ascii) :
  forallb is_ascii cs = true -> map low_byte (utf16_of_utf8 cs) = cs.
Proof.
  induction cs as [|c cs IH]; intros H; [reflexivity|].
  cbn [forallb] in H. apply andb_true_iff in H as [Hc Hr].
  rewrite utf16_of_utf8_plain by assumption. cbn [map].
  now rewrite low_byte_of_ascii, IH.
Qed.

(** Lists are traversed three elements at a time by the base64 encoder. *)
Lemma list_ind3 {A} (P : list A -> Prop) :
  P [] -> (forall a, P [a]) -> (forall a b, P [a; b]) ->
  (forall a b c l, P l -> P (a :: b :: c :: l)) ->
  forall l, P l.
Proof.
  intros H0 H1 H2 H3 l.
  assert (H : P l /\ (forall a, P (a :: l)) /\ (forall a b, P (a :: b :: l))).
  { induction l as [|x l (IH0 & IH1 & IH2)].
    - auto.
    - repeat split; auto. }
  apply H.
Qed.

(** ** Base64 *)

Module Base64Facts.
Import Base64.

Lemma char_of_sextet_legal (n : N) :
  (n < 64)%N ->
  Ascii.eqb (char_of_sextet n) pad = false /\
  unbase64 (char_of_sextet n) = Some n.
Proof.
  intros Hn.
  assert (Hall : forallb (fun i =>
            negb (Ascii.eqb (char_of_sextet (N.of_nat i)) pad) &&
            match unbase64 (char_of_sextet (N.of_nat i)) with
            | Some m => N.eqb m (N.of_nat i)
            | None => false
            end) (seq 0 64) = true) by (vm_compute; reflexivity).
  rewrite forallb_forall in Hall.
  specialize (Hall (N.to_nat n)).
  rewrite N2Nat.id in Hall.
  assert (Hin : In (N.to_nat n) (seq 0 64)) by (apply in_seq; lia).
  apply Hall in Hin. apply andb_true_iff in Hin as [Hp Hu].
  split.
  - now apply negb_true_iff in Hp.
  - destruct (unbase64 (char_of_sextet n)) as [m|]; [|discriminate].
    apply N.eqb_eq in Hu. now subst.
Qed.

Lemma legal_sextets_cons (n : N) (cs : list ascii) :
  (n < 64)%N ->
  legal_sextets (char_of_sextet n :: cs) = n :: legal_sextets cs.
Proof.
  intros Hn. destruct (char_of_sextet_legal n Hn) as [Hp Hu].
  simpl. now rewrite Hp, Hu.
Qed.

Lemma legal_sextets_pad (cs : list ascii) : legal_sextets (pad :: cs) = [].
Proof. reflexivity. Qed.

Ltac div_mod_lia :=
  unfold group24, join24, sextet0, sextet1, sextet2, sextet3 in *;
  zify; Z.to_euclidean_division_equations; lia.

Lemma group24_bound (a b c : byte) : (group24 a b c < 16777216)%N.
Proof.
  pose proof (N_ascii_bounded a). pose proof (N_ascii_bounded b).
  pose proof (N_ascii_bounded c). unfold group24. lia.
Qed.

Lemma sextets_bound (n : N) :
  (n < 16777216)%N ->
  (sextet0 n < 64 /\ sextet1 n < 64 /\ sextet2 n < 64 /\ sextet3 n < 64)%N.
Proof. intros H. repeat split; div_mod_lia. Qed.

Lemma join24_sextets (n : N) :
  join24 (sextet0 n) (sextet1 n) (sextet2 n) (sextet3 n) = n.
Proof. div_mod_lia. Qed.

Lemma octets_group24 (a b c : byte) :
  octet0 (group24 a b c) = a /\ octet1 (group24 a b c) = b /\
  octet2 (group24 a b c) = c.
Proof.
  pose proof (N_ascii_bounded a) as Ha. pose proof (N_ascii_bounded b) as Hb.
  pose proof (N_ascii_bounded c) as Hc.
  unfold octet0, octet1, octet2.
  replace (group24 a b c / 65536)%N with (N_of_ascii a) by div_mod_lia.
  replace ((group24 a b c / 256) mod 256)%N with (N_of_ascii b) by div_mod_lia.
  replace (group24 a b c mod 256)%N with (N_of_ascii c) by div_mod_lia.
  now rewrite !ascii_N_embedding.
Qed.

Lemma group24_a00 (a : byte) :
  group24 a Ascii.zero Ascii.zero = (N_of_ascii a * 65536)%N.
Proof. unfold group24. change (N_of_ascii Ascii.zero) with 0%N. lia. Qed.

Lemma group24_ab0 (a b : byte) :
  group24 a b Ascii.zero = (N_of_ascii a * 65536 + N_of_ascii b * 256)%N.
Proof. unfold group24. change (N_of_ascii Ascii.zero) with 0%N. lia. Qed.

Lemma octets_one (a : byte) :
  let n := group24 a Ascii.zero Ascii.zero in
  octet0 (join24 (sextet0 n) (sextet1 n) 0 0) = a.
Proof.
  intros n. subst n. rewrite group24_a00.
  pose proof (N_ascii_bounded a) as Ha. unfold octet0.
  match goal with |- ascii_of_N ?x = _ =>
    replace x with (N_of_ascii a) by div_mod_lia end.
  apply ascii_N_embedding.
Qed.

Lemma octets_two (a b : byte) :
  let n := group24 a b Ascii.zero in
  octet0 (join24 (sextet0 n) (sextet1 n) (sextet2 n) 0) = a /\
  octet1 (join24 (sextet0 n) (sextet1 n) (sextet2 n) 0) = b.
Proof.
  intros n. subst n. rewrite group24_ab0.
  pose proof (N_ascii_bounded a) as Ha. pose proof (N_ascii_bounded b) as Hb.
  unfold octet0, octet1. split.
  - match goal with |- ascii_of_N ?x = _ =>
      replace x with (N_of_ascii a) by div_mod_lia end.
    apply ascii_N_embedding.
  - match goal with |- ascii_of_N ?x = _ =>
      replace x with (N_of_ascii b) by div_mod_lia end.
    apply ascii_N_embedding.
Qed.

Lemma decode_encode_chars (bs : Buffer) :
  decode_sextets (legal_sextets (encode_chars bs)) = bs.
Proof.
  induction bs as [|a|a b|a b c rest IH] using list_ind3.
  - reflexivity.
  - cbn [encode_chars].
    destruct (sextets_bound _ (group24_bound a Ascii.zero Ascii.zero))
      as (H0 & H1 & _).
    rewrite !legal_sextets_cons, legal_sextets_pad by assumption.
    cbn [decode_sextets]. now rewrite octets_one.
  - cbn [encode_chars].
    destruct (sextets_bound _ (group24_bound a b Ascii.zero))
      as (H0 & H1 & H2 & _).
    rewrite !legal_sextets_cons, legal_sextets_pad by assumption.
    cbn [decode_sextets].
    destruct (octets_two a b) as [-> ->]. reflexivity.
  - cbn [encode_chars].
    destruct (sextets_bound _ (group24_bound a b c)) as (H0 & H1 & H2 & H3).
    rewrite !legal_sextets_cons by assumption.
    cbn [decode_sextets]. rewrite join24_sextets.
    destruct (octets_group24 a b c) as (-> & -> & ->).
    now rewrite IH.
Qed.

Lemma char_of_sextet_ascii (n : N) : is_ascii (char_of_sextet n) = true.
Proof.
  unfold char_of_sextet.
  assert (Hall : forallb is_ascii alphabet = true) by (vm_compute; reflexivity).
  rewrite forallb_forall in Hall.
  destruct (Nat.lt_ge_cases (N.to_nat n) (List.length alphabet)) as [H|H].
  - apply Hall. now apply nth_In.
  - now rewrite nth_overflow.
Qed.

(** Base64 text is ASCII. *)
Lemma encode_chars_ascii (bs : Buffer) : forallb is_ascii (encode_chars bs) = true.
Proof.
  induction bs as [|a|a b|a b c rest IH] using list_ind3;
    cbn [encode_chars forallb]; rewrite ?char_of_sextet_ascii, ?IH;
    reflexivity.
Qed.

(** [Buffer.from(buf.toString('base64'), 'base64')] gives [buf] back. *)
Lemma decode_encode (bs : Buffer) : decode (encode bs) = bs.
Proof.
  unfold decode, encode, code_units.
  rewrite list_ascii_of_string_of_list_ascii.
  rewrite low_bytes_ascii by apply encode_chars_ascii.
  apply decode_encode_chars.
Qed.

(** Text outside ASCII is read by the low byte of each code unit: U+0141,
    whose low byte is that of [A], decodes as [A] does. *)
Example decode_low_bytes :
  decode (string_of_list_ascii
            (map ascii_of_N [197; 129; 197; 129; 197; 129; 197; 129]%N))
  = decode "AAAA" /\
  decode "AAAA" = [Ascii.zero; Ascii.zero; Ascii.zero].
Proof. split; reflexivity. Qed.

Lemma encode_chars_length (bs : Buffer) :
  List.length (encode_chars bs) = 4 * ((List.length bs + 2) / 3).
Proof.
  induction bs as [|a|a b|a b c rest IH] using list_ind3;
    try reflexivity.
  cbn [encode_chars List.length]. rewrite IH.
  replace (S (S (S (List.length rest))) + 2) with (1 * 3 + (List.length rest + 2))
    by lia.
  rewrite Nat.div_add_l by discriminate. lia.
Qed.

Lemma string_of_list_ascii_length (cs : list ascii) :
  String.length (string_of_list_ascii cs) = List.length cs.
Proof. induction cs; simpl; congruence. Qed.

Lemma list_ascii_of_string_length (s : string) :
  List.length (list_ascii_of_string s) = String.length s.
Proof. induction s; simpl; congruence. Qed.

(** The base64 text of [n] bytes has [4 * ceil(n / 3)] characters. *)
Lemma encode_length (bs : Buffer) :
  String.length (encode bs) = 4 * ((List.length bs + 2) / 3).
Proof.
  unfold encode. rewrite string_of_list_ascii_length.
  apply encode_chars_length.
Qed.

End Base64Facts.

(** ** Worlds and the monad *)

Lemma after_after (w : World) (a b : list Event) :
  after (after w a) b = after w (a ++ b).
Proof. unfold after; simpl. now rewrite app_assoc. Qed.

Lemma after_nil (w : World) : after w [] = w.
Proof. destruct w; unfold after; simpl. now rewrite app_nil_r. Qed.

Lemma world_independent_ret {A} (a : A) : world_independent (ret a).
Proof. exists (inr a), []. intros w. now rewrite after_nil. Qed.

Lemma world_independent_throw {A} (e : exn) : world_independent (@throw A e).
Proof. exists (inl e), []. intros w. now rewrite after_nil. Qed.

Lemma world_independent_lift {A} (r : exn + A) : world_independent (lift r).
Proof. exists r, []. intros w. now rewrite after_nil. Qed.

Lemma world_independent_log (ev : Event) : world_independent (log ev).
Proof. exists (inr tt), [ev]. reflexivity. Qed.

Lemma world_independent_bind {A B} (m : M A) (k : A -> M B) :
  world_independent m -> (forall a, world_independent (k a)) ->
  world_independent (bind m k).
Proof.
  intros (r & evs & Hm) Hk. destruct r as [e|a].
  - exists (inl e), evs. intros w. unfold bind. now rewrite Hm.
  - destruct (Hk a) as (r' & evs' & Hka).
    exists r', (evs ++ evs'). intros w. unfold bind.
    now rewrite Hm, Hka, after_after.
Qed.

Lemma world_independent_fst {A} (m : M A) :
  world_independent m -> forall w1 w2, fst (m w1) = fst (m w2).
Proof. intros (r & evs & H) w1 w2. now rewrite !H. Qed.

Lemma world_independent_consumed {A} (m : M A) :
  world_independent m -> forall w, consumed (snd (m w)) = consumed w.
Proof. intros (r & evs & H) w. now rewrite H. Qed.

Create HintDb windep.

#[local] Hint Resolve world_independent_ret world_independent_throw
  world_independent_lift world_independent_log : windep.

Lemma bind_inr {A B} (m : M A) (k : A -> M B) (w w' : World) (a : A) :
  m w = (inr a, w') -> bind m k w = k a w'.
Proof. intros H. unfold bind. now rewrite H. Qed.

Lemma bind_inl {A B} (m : M A) (k : A -> M B) (w w' : World) (e : exn) :
  m w = (inl e, w') -> bind m k w = (inl e, w').
Proof. intros H. unfold bind. now rewrite H. Qed.

Lemma upcoming_shift (w : World) (n m : nat) (t : list Event) :
  upcoming (mkWorld (entropy w) (consumed w + n) t) 0 m = upcoming w n m.
Proof. unfold upcoming; simpl. now rewrite Nat.add_0_r. Qed.

Lemma randomBytes_run (n : nat) (w : World) :
  crypto_randomBytes n w =
  (inr (upcoming w 0 n),
   mkWorld (entropy w) (consumed w + n) (trace w ++ [RandomBytes n])).
Proof. reflexivity. Qed.

(** ** Validation *)

Lemma validateAAD_valid (aad : JsValue) :
  valid_aad aad = true -> _validateAAD aad = inr tt.
Proof.
  intros H. destruct aad as [| | | |s| | | |]; simpl in H; try discriminate H;
    try reflexivity.
  destruct s; [discriminate H | reflexivity].
Qed.

Lemma validateAAD_invalid (aad : JsValue) :
  valid_aad aad = false -> exists e, _validateAAD aad = inl e.
Proof.
  intros H. destruct aad as [| | | |s| | | |]; simpl in H; try discriminate H;
    unfold _validateAAD; simpl; eauto.
  destruct s; [simpl; eauto | discriminate H].
Qed.

Lemma slice_length (b : Buffer) (i j : nat) :
  j <= List.length b -> List.length (slice b i j) = j - i.
Proof. intros H. unfold slice. rewrite length_firstn, length_skipn. lia. Qed.







Section Properties.

Context {node : NodeRuntime}.

(** What the codec relies on from the runtime: both PBKDF2 entry points
    compute the same key of the requested length; GCM tags are 16 bytes long;
    12-byte IVs and 16-byte tags are accepted; the empty text is not JSON. *)
Hypothesis pbkdf2_agree : forall p s i l d,
  crypto_pbkdf2 p s i l d = inr (crypto_pbkdf2Sync p s i l d).
Hypothesis pbkdf2Sync_length : forall p s i l d,
  List.length (crypto_pbkdf2Sync p s i l d) = l.
Hypothesis gcm_tag_length : forall k iv a c,
  List.length (gcm_tag k iv a c) = 16.
Hypothesis iv12_ok : gcm_iv_length_ok 12 = true.
Hypothesis tag16_ok : gcm_tag_length_ok 16 = true.
Hypothesis JSON_parse_empty : exists e, JSON_parse EmptyString = inl e.

Lemma derive_length (k : StringOrBuffer) (salt : Buffer) :
  List.length (derive k salt) = 32.
Proof. apply pbkdf2Sync_length. Qed.

Lemma makeCryptoWith_inr (opts : CryptoOptions) (c : Crypto.t) :
  makeCryptoWith opts = inr c ->
  exists k, encryptionKey opts = Some k /\
            c = {| Crypto.encrypt := codec_encrypt k;
                   Crypto.decrypt := codec_decrypt k;
                   Crypto.encryptSync := codec_encryptSync k;
                   Crypto.decryptSync := codec_decryptSync k |}.
Proof.
  unfold makeCryptoWith, _validateOpts.
  destruct opts as [[k|]]; cbn [encryptionKey].
  - destruct (truthy (Some k)); cbn [negb]; intros H; [|discriminate H].
    injection H as <-. eauto.
  - cbn. discriminate.
Qed.

(** *** Seal *)

Lemma encrypt_run (s : string) (iv key salt : Buffer) (aad : JsValue) (w : World) :
  valid_aad aad = true -> List.length key = 32 -> List.length iv = 12 ->
  encrypt s iv key salt aad w =
  (inr (Base64.encode (envelope key iv salt aad s)),
   after w [CreateCipheriv key iv]).
Proof.
  intros Ha Hk Hi.
  unfold encrypt, createCipheriv, bind, log.
  rewrite Hk, Hi, iv12_ok. cbn [Nat.eqb KEY_LENGTH_IN_BYTES negb ret].
  change (Nat.eqb 32 KEY_LENGTH_IN_BYTES) with true. cbn [negb].
  unfold envelope, ciphertext, Buffer_concat, cipher_final.
  destruct aad; simpl in Ha; try discriminate Ha; cbn; rewrite ?app_nil_r;
    reflexivity.
Qed.

Lemma string_app_nil_r (s : string) : (s ++ EmptyString)%string = s.
Proof. induction s; simpl; congruence. Qed.

(** *** Open *)

Lemma decrypt_parts_run (key iv tag text : Buffer) (aad : JsValue) (w : World) :
  valid_aad aad = true ->
  List.length key = 32 -> List.length iv = 12 -> List.length tag = 16 ->
  decrypt_parts key iv tag text aad w =
  if buffer_eqb tag (gcm_tag key iv (aad_bytes aad) text)
  then (JSON_parse (Buffer_toString_utf8
                      (xor_stream (gcm_keystream key iv) 0 text)),
        after w [CreateDecipheriv key iv; JsonParse])
  else (inl (Error AUTH_FAILURE), after w [CreateDecipheriv key iv]).
Proof.
  intros Ha Hk Hi Ht.
  assert (Hfull : forall a, firstn 16 (gcm_tag key iv a text) = gcm_tag key iv a text).
  { intros a. apply firstn_all2. now rewrite gcm_tag_length. }
  unfold decrypt_parts, createDecipheriv, decipher_setAuthTag, bind, log.
  rewrite Hk, Hi, iv12_ok.
  change (Nat.eqb 32 KEY_LENGTH_IN_BYTES) with true.
  cbn [negb ret decipher_key decipher_iv decipher_aad decipher_tag decipher_text].
  rewrite Ht, tag16_ok.
  destruct aad; simpl in Ha; try discriminate Ha;
    cbn [is_nullish negb ret Buffer_from_aad bind decipher_setAAD
         decipher_update decipher_final tag_matches
         decipher_key decipher_iv decipher_aad decipher_tag decipher_text
         aad_bytes List.length app];
    unfold decipher_final, tag_matches;
    cbn [decipher_key decipher_iv decipher_aad decipher_tag decipher_text];
    rewrite Ht, Hfull; cbn [Nat.leb andb];
    (destruct (buffer_eqb tag _);
     [ cbn [ret throw lift]; rewrite string_app_nil_r; unfold after; cbn;
       rewrite <- app_assoc; reflexivity
     | reflexivity ]).
Qed.


Lemma generateKey_run (k : StringOrBuffer) (salt : Buffer) (w : World) :
  _generateKey k (Buf salt) w =
  (inr (derive k salt), after w [Pbkdf2 (binary_like k) salt]).
Proof.
  unfold _generateKey, bind, ret, log, lift. now rewrite pbkdf2_agree.
Qed.

Lemma generateKeySync_run (k : StringOrBuffer) (salt : Buffer) (w : World) :
  _generateKeySync k (Buf salt) w =
  (inr (derive k salt), after w [Pbkdf2Sync (binary_like k) salt]).
Proof. reflexivity. Qed.

Lemma asBuffer_run (out : StringOrBuffer) (w : World) :
  asBuffer out w =
  (inr (decoded out),
   after w match out with Buf _ => [] | Str _ => [BufferFromBase64] end).
Proof.
  destruct out; simpl.
  - reflexivity.
  - unfold ret. now rewrite after_nil.
Qed.

Lemma serialize_run (v : JsValue) (w : World) :
  _serialize v w =
  (match JSON_stringify v with
   | inr (Some s) => inr s
   | inr None => inl (Error "Object to be encrypted must be serializable")
   | inl e => inl e
   end, after w [JsonStringify]).
Proof.
  unfold _serialize, bind, log, lift.
  now destruct (JSON_stringify v) as [e|[s|]].
Qed.

(** What the asynchronous [encrypt] returns: the salt is drawn first, then
    the IV. *)
Lemma codec_encrypt_fst (k : StringOrBuffer) (v : JsValue) (s : string)
                        (aad : JsValue) (w : World) :
  valid_aad aad = true -> JSON_stringify v = inr (Some s) ->
  fst (codec_encrypt k v aad w) =
  inr (Base64.encode
         (envelope (derive k (upcoming w 0 64)) (upcoming w 64 12)
                   (upcoming w 0 64) aad s)).
Proof.
  intros Ha Hs. unfold codec_encrypt, _generateSalt, _generateIV.
  erewrite bind_inr by (unfold lift; now rewrite validateAAD_valid).
  erewrite bind_inr by apply randomBytes_run.
  erewrite bind_inr by (rewrite serialize_run, Hs; reflexivity).
  erewrite bind_inr by apply randomBytes_run.
  erewrite bind_inr by apply generateKey_run.
  rewrite encrypt_run; auto using derive_length, upcoming_length.
  cbn [fst]. unfold after; cbn [entropy consumed trace].
  now rewrite upcoming_shift.
Qed.

(** What [encryptSync] returns: the IV is drawn first, then the salt. *)
Lemma codec_encryptSync_fst (k : StringOrBuffer) (v : JsValue) (s : string)
                            (aad : JsValue) (w : World) :
  valid_aad aad = true -> JSON_stringify v = inr (Some s) ->
  fst (codec_encryptSync k v aad w) =
  inr (Base64.encode
         (envelope (derive k (upcoming w 12 64)) (upcoming w 0 12)
                   (upcoming w 12 64) aad s)).
Proof.
  intros Ha Hs. unfold codec_encryptSync, _generateSalt, _generateIV.
  erewrite bind_inr by (unfold lift; now rewrite validateAAD_valid).
  erewrite bind_inr by (rewrite serialize_run, Hs; reflexivity).
  erewrite bind_inr by apply randomBytes_run.
  erewrite bind_inr by apply randomBytes_run.
  erewrite bind_inr by apply generateKeySync_run.
  rewrite encrypt_run; auto using derive_length, upcoming_length.
  cbn [fst]. unfold after; cbn [entropy consumed trace].
  now rewrite upcoming_shift.
Qed.


(** A successful seal had a valid AAD and a serializable input. *)
Lemma codec_encrypt_inr (k : StringOrBuffer) (v aad : JsValue) (w : World)
                        (e : string) :
  fst (codec_encrypt k v aad w) = inr e ->
  valid_aad aad = true /\ exists s, JSON_stringify v = inr (Some s).
Proof.
  intros H. destruct (valid_aad aad) eqn:Ha.
  - split; [reflexivity|].
    destruct (JSON_stringify v) as [x|[s|]] eqn:Hs; eauto;
      exfalso; revert H; unfold codec_encrypt, _generateSalt;
      (erewrite bind_inr by (unfold lift; now rewrite validateAAD_valid));
      (erewrite bind_inr by apply randomBytes_run);
      (erewrite bind_inl by (rewrite serialize_run, Hs; reflexivity));
      discriminate.
  - exfalso. destruct (validateAAD_invalid aad Ha) as [x Hx].
    revert H. unfold codec_encrypt.
    erewrite bind_inl by (unfold lift; now rewrite Hx). discriminate.
Qed.

Lemma codec_encryptSync_inr (k : StringOrBuffer) (v aad : JsValue) (w : World)
                            (e : string) :
  fst (codec_encryptSync k v aad w) = inr e ->
  valid_aad aad = true /\ exists s, JSON_stringify v = inr (Some s).
Proof.
  intros H. destruct (valid_aad aad) eqn:Ha.
  - split; [reflexivity|].
    destruct (JSON_stringify v) as [x|[s|]] eqn:Hs; eauto;
      exfalso; revert H; unfold codec_encryptSync;
      (erewrite bind_inr by (unfold lift; now rewrite validateAAD_valid));
      (erewrite bind_inl by (rewrite serialize_run, Hs; reflexivity));
      discriminate.
  - exfalso. destruct (validateAAD_invalid aad Ha) as [x Hx].
    revert H. unfold codec_encryptSync.
    erewrite bind_inl by (unfold lift; now rewrite Hx). discriminate.
Qed.

(** A seal without a JSON text: [JSON.stringify] threw [e], or it returned
    [undefined] and [_serialize] throws.  The asynchronous form has drawn the
    salt by then, the synchronous form nothing. *)
Lemma serialize_fails (k : StringOrBuffer) (v aad : JsValue) (w : World)
                      (e : exn) :
  valid_aad aad = true ->
  JSON_stringify v = inl e \/
  (JSON_stringify v = inr None /\
   e = Error "Object to be encrypted must be serializable") ->
  codec_encrypt k v aad w =
    (inl e, mkWorld (entropy w) (consumed w + 64)
              (trace w ++ [RandomBytes 64; JsonStringify])) /\
  codec_encryptSync k v aad w =
    (inl e, mkWorld (entropy w) (consumed w) (trace w ++ [JsonStringify])).
Proof.
  intros Ha Hs.
  assert (Hrun : forall w0, _serialize v w0 = (inl e, after w0 [JsonStringify])).
  { intros w0. rewrite serialize_run. now destruct Hs as [->|[-> ->]]. }
  split.
  - unfold codec_encrypt, _generateSalt.
    erewrite bind_inr by (unfold lift; now rewrite validateAAD_valid).
    erewrite bind_inr by apply randomBytes_run.
    erewrite bind_inl by apply Hrun.
    unfold after; cbn. now rewrite <- app_assoc.
  - unfold codec_encryptSync.
    erewrite bind_inr by (unfold lift; now rewrite validateAAD_valid).
    erewrite bind_inl by apply Hrun.
    reflexivity.
Qed.

(** What [decrypt] does with the sliced parts of an envelope of at least 92
    bytes. *)
Lemma decrypt_fst (key b : Buffer) (aad : JsValue) (w : World) :
  valid_aad aad = true -> List.length key = 32 -> 92 <= List.length b ->
  fst (decrypt key b aad w) =
  if buffer_eqb (slice b 76 92)
                (gcm_tag key (slice b 64 76) (aad_bytes aad) (slice_from b 92))
  then JSON_parse (Buffer_toString_utf8
                     (xor_stream (gcm_keystream key (slice b 64 76)) 0
                                 (slice_from b 92)))
  else inl (Error AUTH_FAILURE).
Proof.
  intros Ha Hk Hb. unfold decrypt.
  change (SALT_LENGTH_IN_BYTES + IV_LENGTH_IN_BYTES + 16) with 92.
  change (SALT_LENGTH_IN_BYTES + IV_LENGTH_IN_BYTES) with 76.
  change SALT_LENGTH_IN_BYTES with 64.
  rewrite decrypt_parts_run; auto.
  - now destruct (buffer_eqb _ _).
  - rewrite slice_length; lia.
  - rewrite slice_length; lia.
Qed.

Lemma codec_decrypt_fst (k : StringOrBuffer) (out : StringOrBuffer)
                        (aad : JsValue) (w : World) :
  valid_aad aad = true -> 92 <= List.length (decoded out) ->
  fst (codec_decrypt k out aad w) =
  fst (decrypt (derive k (slice (decoded out) 0 64)) (decoded out) aad w).
Proof.
  intros Ha Hb. unfold codec_decrypt.
  erewrite bind_inr by (unfold lift; now rewrite validateAAD_valid).
  erewrite bind_inr by apply asBuffer_run.
  erewrite bind_inr by apply generateKey_run.
  rewrite !decrypt_fst; auto using derive_length.
Qed.

Lemma codec_decryptSync_fst (k : StringOrBuffer) (out : StringOrBuffer)
                            (aad : JsValue) (w : World) :
  valid_aad aad = true -> 92 <= List.length (decoded out) ->
  fst (codec_decryptSync k out aad w) =
  fst (decrypt (derive k (slice (decoded out) 0 64)) (decoded out) aad w).
Proof.
  intros Ha Hb. unfold codec_decryptSync.
  erewrite bind_inr by (unfold lift; now rewrite validateAAD_valid).
  erewrite bind_inr by apply asBuffer_run.
  erewrite bind_inr by apply generateKeySync_run.
  rewrite !decrypt_fst; auto using derive_length.
Qed.

(** *** The envelope layout *)

Lemma envelope_slices (key iv salt : Buffer) (aad : JsValue) (s : string) :
  List.length salt = 64 -> List.length iv = 12 ->
  let b := envelope key iv salt aad s in
  slice b 0 64 = salt /\ slice b 64 76 = iv /\
  slice b 76 92 = gcm_tag key iv (aad_bytes aad) (ciphertext key iv s) /\
  slice_from b 92 = ciphertext key iv s /\
  List.length b = 92 + String.length s.
Proof.
  intros Hs Hi b. subst b. unfold envelope, slice, slice_from.
  set (tag := gcm_tag key iv (aad_bytes aad) (ciphertext key iv s)).
  set (ct := ciphertext key iv s).
  assert (Ht : List.length tag = 16) by apply gcm_tag_length.
  assert (Hc : List.length ct = String.length s).
  { unfold ct, ciphertext, Buffer_from_utf8.
    rewrite xor_stream_length. apply Base64Facts.list_ascii_of_string_length. }
  repeat split.
  - cbn [skipn Nat.sub]. now apply firstn_app_exact.
  - rewrite skipn_app_exact by assumption.
    now apply firstn_app_exact.
  - replace (salt ++ iv ++ tag ++ ct) with ((salt ++ iv) ++ tag ++ ct)
      by now rewrite <- app_assoc.
    rewrite skipn_app_exact by (rewrite length_app; lia).
    now apply firstn_app_exact.
  - replace (salt ++ iv ++ tag ++ ct) with ((salt ++ iv ++ tag) ++ ct)
      by now rewrite <- !app_assoc.
    apply skipn_app_exact. rewrite !length_app. lia.
  - rewrite !length_app. lia.
Qed.

(** Opening what was sealed: the tag check passes and the plaintext comes
    back. *)
Lemma open_sealed (key iv salt : Buffer) (aad : JsValue) (s : string) (w : World) :
  valid_aad aad = true ->
  List.length key = 32 -> List.length salt = 64 -> List.length iv = 12 ->
  fst (decrypt key (envelope key iv salt aad s) aad w) = JSON_parse s.
Proof.
  intros Ha Hk Hs Hi.
  destruct (envelope_slices key iv salt aad s Hs Hi) as (_ & E2 & E3 & E4 & El).
  rewrite decrypt_fst by (auto; lia).
  rewrite E2, E3, E4, buffer_eqb_refl.
  unfold ciphertext. rewrite xor_stream_involutive.
  unfold Buffer_toString_utf8, Buffer_from_utf8.
  now rewrite string_of_list_ascii_of_string.
Qed.

(** Every operation stops at an invalid AAD, leaving the world untouched. *)
Lemma invalid_aad_stops (k : StringOrBuffer) (aad : JsValue) (e : exn) :
  _validateAAD aad = inl e ->
  forall (input : JsValue) (out : StringOrBuffer) (w : World),
    codec_encrypt k input aad w = (inl e, w) /\
    codec_decrypt k out aad w = (inl e, w) /\
    codec_encryptSync k input aad w = (inl e, w) /\
    codec_decryptSync k out aad w = (inl e, w).
Proof.
  intros H input out w.
  unfold codec_encrypt, codec_decrypt, codec_encryptSync, codec_decryptSync.
  repeat split; apply bind_inl; unfold lift; now rewrite H.
Qed.

(** The envelope returned by either form of encrypt, in terms of the salt and
    IV that were drawn. *)
Lemma sealed_form (k : StringOrBuffer) (v aad : JsValue) (w : World) (e : string) :
  fst (codec_encrypt k v aad w) = inr e \/
  fst (codec_encryptSync k v aad w) = inr e ->
  valid_aad aad = true /\
  exists s salt iv,
    JSON_stringify v = inr (Some s) /\
    List.length salt = 64 /\ List.length iv = 12 /\
    e = Base64.encode (envelope (derive k salt) iv salt aad s).
Proof.
  intros [H|H].
  - destruct (codec_encrypt_inr _ _ _ _ _ H) as (Ha & s & Hs).
    split; [assumption|].
    rewrite (codec_encrypt_fst k v s aad w Ha Hs) in H. injection H as <-.
    exists s, (upcoming w 0 64), (upcoming w 64 12).
    auto using upcoming_length.
  - destruct (codec_encryptSync_inr _ _ _ _ _ H) as (Ha & s & Hs).
    split; [assumption|].
    rewrite (codec_encryptSync_fst k v s aad w Ha Hs) in H. injection H as <-.
    exists s, (upcoming w 12 64), (upcoming w 0 12).
    auto using upcoming_length.
Qed.

(** The same, naming the bytes of the random source that became salt and IV:
    the asynchronous form draws the salt first, the synchronous form the
    IV. *)
Lemma sealed_drawn (k : StringOrBuffer) (v aad : JsValue) (w : World) (e : string) :
  fst (codec_encrypt k v aad w) = inr e \/
  fst (codec_encryptSync k v aad w) = inr e ->
  valid_aad aad = true /\
  exists s salt iv,
    JSON_stringify v = inr (Some s) /\
    (fst (codec_encrypt k v aad w) = inr e /\
     salt = upcoming w 0 64 /\ iv = upcoming w 64 12 \/
     fst (codec_encryptSync k v aad w) = inr e /\
     salt = upcoming w 12 64 /\ iv = upcoming w 0 12) /\
    List.length salt = 64 /\ List.length iv = 12 /\
    e = Base64.encode (envelope (derive k salt) iv salt aad s).
Proof.
  intros [H|H].
  - destruct (codec_encrypt_inr _ _ _ _ _ H) as (Ha & s & Hs).
    split; [assumption|].
    exists s, (upcoming w 0 64), (upcoming w 64 12).
    split; [assumption|]. split; [left; auto|].
    rewrite (codec_encrypt_fst k v s aad w Ha Hs) in H. injection H as <-.
    auto using upcoming_length.
  - destruct (codec_encryptSync_inr _ _ _ _ _ H) as (Ha & s & Hs).
    split; [assumption|].
    exists s, (upcoming w 12 64), (upcoming w 0 12).
    split; [assumption|]. split; [right; auto|].
    rewrite (codec_encryptSync_fst k v s aad w Ha Hs) in H. injection H as <-.
    auto using upcoming_length.
Qed.

Lemma ciphertext_length (key iv : Buffer) (s : string) :
  List.length (ciphertext key iv s) = String.length s.
Proof.
  unfold ciphertext, Buffer_from_utf8.
  rewrite xor_stream_length. apply Base64Facts.list_ascii_of_string_length.
Qed.

(** ** The claims *)

(** C1. Round trip: for a codec built from an accepted passphrase, a valid
    AAD (absent, or a non-empty string) and a serializable value, decrypting
    what encrypt returned gives the value back, in the asynchronous and in
    the synchronous form, whatever salt and IV the random source supplied. *)
Theorem roundtrip (opts : CryptoOptions) (c : Crypto.t) (v aad : JsValue)
                  (w : World) :
  makeCryptoWith opts = inr c ->
  valid_aad aad = true ->
  serializable v ->
  (exists e, fst (Crypto.encrypt c v aad w) = inr e /\
             forall w', fst (Crypto.decrypt c (Str e) aad w') = inr v) /\
  (exists e, fst (Crypto.encryptSync c v aad w) = inr e /\
             forall w', fst (Crypto.decryptSync c (Str e) aad w') = inr v).
Proof.
  intros Hc Ha (s & Hs & Hp).
  destruct (makeCryptoWith_inr _ _ Hc) as (k & _ & ->).
  cbn [Crypto.encrypt Crypto.decrypt Crypto.encryptSync Crypto.decryptSync].
  split; eexists; (split; [eauto using codec_encrypt_fst, codec_encryptSync_fst|]);
    intros w'.
  - assert (Hl : List.length (upcoming w 0 64) = 64) by apply upcoming_length.
    assert (Hi : List.length (upcoming w 64 12) = 12) by apply upcoming_length.
    destruct (envelope_slices (derive k (upcoming w 0 64)) _ _ aad s Hl Hi)
      as (E1 & _ & _ & _ & El).
    rewrite codec_decrypt_fst;
      cbn [decoded]; rewrite ?Base64Facts.decode_encode; auto; try lia.
    rewrite E1, open_sealed; auto using derive_length.
  - assert (Hl : List.length (upcoming w 12 64) = 64) by apply upcoming_length.
    assert (Hi : List.length (upcoming w 0 12) = 12) by apply upcoming_length.
    destruct (envelope_slices (derive k (upcoming w 12 64)) _ _ aad s Hl Hi)
      as (E1 & _ & _ & _ & El).
    rewrite codec_decryptSync_fst;
      cbn [decoded]; rewrite ?Base64Facts.decode_encode; auto; try lia.
    rewrite E1, open_sealed; auto using derive_length.
Qed.


(** C3 (evaluation). With a value that has no JSON text, the asynchronous
    encrypt has drawn the 64 salt bytes by the time it fails; encryptSync
    fails with the random source untouched.  Neither derives a key. *)
Theorem not_serializable_effects (opts : CryptoOptions) (c : Crypto.t)
                                 (v aad : JsValue) (w : World) :
  makeCryptoWith opts = inr c ->
  valid_aad aad = true -> JSON_stringify v = inr None ->
  Crypto.encrypt c v aad w =
    (inl (Error "Object to be encrypted must be serializable"),
     mkWorld (entropy w) (consumed w + 64)
             (trace w ++ [RandomBytes 64; JsonStringify])) /\
  Crypto.encryptSync c v aad w =
    (inl (Error "Object to be encrypted must be serializable"),
     mkWorld (entropy w) (consumed w) (trace w ++ [JsonStringify])).
Proof.
  intros Hc Ha Hs.
  destruct (makeCryptoWith_inr _ _ Hc) as (k & _ & ->).
  cbn [Crypto.encrypt Crypto.encryptSync].
  apply serialize_fails; auto.
Qed.

(** C4. Given the same passphrase, value, AAD, salt and IV, encrypt and
    encryptSync return the same envelope (or fail with the same error): the
    two key derivations return the same 32-byte key and the sealing step is
    shared.  The asynchronous form draws the salt before the IV, the
    synchronous form the IV before the salt. *)
Theorem sync_async_same_envelope (opts : CryptoOptions) (c : Crypto.t)
    (v aad : JsValue) (salt iv : Buffer) (wa ws : World) :
  makeCryptoWith opts = inr c ->
  upcoming wa 0 64 = salt -> upcoming wa 64 12 = iv ->
  upcoming ws 0 12 = iv -> upcoming ws 12 64 = salt ->
  fst (Crypto.encrypt c v aad wa) = fst (Crypto.encryptSync c v aad ws) /\
  (forall k w w',
      fst (_generateKey k (Buf salt) w) = fst (_generateKeySync k (Buf salt) w') /\
      exists key, fst (_generateKey k (Buf salt) w) = inr key /\
                  List.length key = 32).
Proof.
  intros Hc Hsa Hia His Hss.
  destruct (makeCryptoWith_inr _ _ Hc) as (k & _ & ->).
  cbn [Crypto.encrypt Crypto.encryptSync]. split.
  - destruct (valid_aad aad) eqn:Ha.
    + destruct (JSON_stringify v) as [x|[s|]] eqn:Hs.
      * destruct (serialize_fails k v aad wa x Ha (or_introl Hs)) as [-> _].
        destruct (serialize_fails k v aad ws x Ha (or_introl Hs)) as [_ ->].
        reflexivity.
      * rewrite (codec_encrypt_fst k v s aad wa Ha Hs).
        rewrite (codec_encryptSync_fst k v s aad ws Ha Hs).
        now rewrite Hsa, Hia, His, Hss.
      * destruct (serialize_fails k v aad wa _ Ha (or_intror (conj Hs eq_refl)))
          as [-> _].
        destruct (serialize_fails k v aad ws _ Ha (or_intror (conj Hs eq_refl)))
          as [_ ->].
        reflexivity.
    + destruct (validateAAD_invalid aad Ha) as [x Hx].
      destruct (invalid_aad_stops k aad x Hx v (Str EmptyString) wa) as (-> & _).
      destruct (invalid_aad_stops k aad x Hx v (Str EmptyString) ws)
        as (_ & _ & -> & _).
      reflexivity.
  - intros k' w w'. rewrite generateKey_run, generateKeySync_run.
    split; [reflexivity|]. eexists; split; [reflexivity|].
    apply derive_length.
Qed.

(** C5. Every envelope returned by encrypt or encryptSync is the base64 text
    of [salt(64) || iv(12) || tag(16) || ciphertext], where the salt and the
    IV are the bytes the call drew from the random source (encrypt draws the
    salt first, encryptSync the IV), the ciphertext is the UTF-8 text of the
    value under the GCM key stream of the key derived from that salt, and
    the tag is the GCM tag of key, IV, AAD and ciphertext.  decrypt reads the
    decoded bytes at those offsets: [0,64) is the salt the key is derived
    from, [64,76) the IV, [76,92) the tag and [92,end) the ciphertext. *)
Theorem envelope_layout (opts : CryptoOptions) (c : Crypto.t)
    (k : StringOrBuffer) (v aad : JsValue) (w : World) (e : string) :
  makeCryptoWith opts = inr c -> encryptionKey opts = Some k ->
  fst (Crypto.encrypt c v aad w) = inr e \/
  fst (Crypto.encryptSync c v aad w) = inr e ->
  exists (s : string) (salt iv : Buffer),
    JSON_stringify v = inr (Some s) /\
    (fst (Crypto.encrypt c v aad w) = inr e /\
     salt = upcoming w 0 64 /\ iv = upcoming w 64 12 \/
     fst (Crypto.encryptSync c v aad w) = inr e /\
     salt = upcoming w 12 64 /\ iv = upcoming w 0 12) /\
    let key := derive k salt in
    let text := ciphertext key iv s in
    let tag := gcm_tag key iv (aad_bytes aad) text in
    List.length salt = 64 /\ List.length iv = 12 /\ List.length tag = 16 /\
    List.length text = String.length s /\
    e = Base64.encode (salt ++ iv ++ tag ++ text) /\
    Base64.decode e = salt ++ iv ++ tag ++ text /\
    slice (Base64.decode e) 0 64 = salt /\
    slice (Base64.decode e) 64 76 = iv /\
    slice (Base64.decode e) 76 92 = tag /\
    slice_from (Base64.decode e) 92 = text /\
    (forall key' aad' w',
        decrypt key' (Base64.decode e) aad' w'
        = decrypt_parts key' iv tag text aad' w') /\
    (forall aad' w',
        valid_aad aad' = true ->
        fst (Crypto.decrypt c (Str e) aad' w')
        = fst (decrypt_parts key iv tag text aad' w') /\
        fst (Crypto.decryptSync c (Str e) aad' w')
        = fst (decrypt_parts key iv tag text aad' w')).
Proof.
  intros Hc Hk He.
  destruct (makeCryptoWith_inr _ _ Hc) as (k' & Hk' & ->).
  rewrite Hk in Hk'. injection Hk' as <-.
  cbn [Crypto.encrypt Crypto.decrypt Crypto.encryptSync Crypto.decryptSync] in *.
  destruct (sealed_drawn _ _ _ _ _ He)
    as (Ha & s & salt & iv & Hs & Hdrawn & Hl & Hi & Hee).
  exists s, salt, iv. split; [exact Hs|]. split; [exact Hdrawn|].
  clear Hdrawn He. subst e. cbv zeta.
  destruct (envelope_slices (derive k salt) iv salt aad s Hl Hi)
    as (E1 & E2 & E3 & E4 & El).
  rewrite Base64Facts.decode_encode.
  assert (Hparts : forall key aad' w',
             decrypt key (envelope (derive k salt) iv salt aad s) aad' w' =
             decrypt_parts key iv
               (gcm_tag (derive k salt) iv (aad_bytes aad)
                        (ciphertext (derive k salt) iv s))
               (ciphertext (derive k salt) iv s) aad' w').
  { intros key aad' w'. unfold decrypt.
    change (SALT_LENGTH_IN_BYTES + IV_LENGTH_IN_BYTES + 16) with 92.
    change (SALT_LENGTH_IN_BYTES + IV_LENGTH_IN_BYTES) with 76.
    change SALT_LENGTH_IN_BYTES with 64.
    now rewrite E2, E3, E4. }
  do 10 (split; [solve [auto using gcm_tag_length, ciphertext_length] |]).
  split; [exact Hparts|].
  intros aad' w' Ha'.
  rewrite codec_decrypt_fst, codec_decryptSync_fst
    by (cbn [decoded]; rewrite ?Base64Facts.decode_encode; auto; lia).
  cbn [decoded]. now rewrite Base64Facts.decode_encode, E1, Hparts.
Qed.

(** C6. For every envelope returned by encrypt or encryptSync, the decoded
    envelope has [64 + 12 + 16 + N] bytes, where [N] is the byte length of
    the serialized value (the ciphertext is as long as the plaintext), and
    the base64 text has [4 * ceil((92 + N) / 3)] characters. *)
Theorem envelope_length (opts : CryptoOptions) (c : Crypto.t) (v : JsValue)
                        (s : string) (aad : JsValue) (w : World) (e : string) :
  makeCryptoWith opts = inr c ->
  JSON_stringify v = inr (Some s) ->
  fst (Crypto.encrypt c v aad w) = inr e \/
  fst (Crypto.encryptSync c v aad w) = inr e ->
  List.length (Base64.decode e) = 64 + 12 + 16 + String.length s /\
  List.length (slice_from (Base64.decode e) 92) = String.length s /\
  String.length e = 4 * ((92 + String.length s + 2) / 3).
Proof.
  intros Hc Hs He.
  destruct (makeCryptoWith_inr _ _ Hc) as (k & Hk & ->).
  cbn [Crypto.encrypt Crypto.encryptSync] in He.
  destruct (sealed_form _ _ _ _ _ He)
    as (Ha & s' & salt & iv & Hs' & Hl & Hi & ->).
  rewrite Hs in Hs'. injection Hs' as <-.
  destruct (envelope_slices (derive k salt) iv salt aad s Hl Hi)
    as (_ & _ & _ & E4 & El).
  rewrite Base64Facts.decode_encode, Base64Facts.encode_length, E4, El.
  repeat split.
  unfold ciphertext, Buffer_from_utf8.
  rewrite xor_stream_length. apply Base64Facts.list_ascii_of_string_length.
Qed.

(** C7. In each of the four operations the AAD is validated before anything
    else: a non-string AAD fails with "AAD must be a string" and an empty
    string with "AAD cannot be an empty string", in both cases with no
    library call made and no randomness drawn; an absent or [null] AAD is
    accepted, and the cipher is then given no associated data (the tag is
    the one of the empty associated data). *)
Theorem aad_validated_first (opts : CryptoOptions) (c : Crypto.t)
    (aad input : JsValue) (out : StringOrBuffer) (w : World) :
  makeCryptoWith opts = inr c ->
  (is_nullish aad = false -> (forall s, aad <> JsString s) ->
     Crypto.encrypt c input aad w = (inl (Error "AAD must be a string"), w) /\
     Crypto.decrypt c out aad w = (inl (Error "AAD must be a string"), w) /\
     Crypto.encryptSync c input aad w = (inl (Error "AAD must be a string"), w) /\
     Crypto.decryptSync c out aad w = (inl (Error "AAD must be a string"), w)) /\
  (aad = JsString EmptyString ->
     Crypto.encrypt c input aad w
       = (inl (Error "AAD cannot be an empty string"), w) /\
     Crypto.decrypt c out aad w
       = (inl (Error "AAD cannot be an empty string"), w) /\
     Crypto.encryptSync c input aad w
       = (inl (Error "AAD cannot be an empty string"), w) /\
     Crypto.decryptSync c out aad w
       = (inl (Error "AAD cannot be an empty string"), w)) /\
  (is_nullish aad = true ->
     _validateAAD aad = inr tt /\
     (forall s iv key salt w',
         List.length key = 32 -> List.length iv = 12 ->
         fst (encrypt s iv key salt aad w') =
         inr (Base64.encode
                (salt ++ iv ++ gcm_tag key iv [] (ciphertext key iv s)
                      ++ ciphertext key iv s))) /\
     Crypto.encrypt c input aad w = Crypto.encrypt c input JsUndefined w /\
     Crypto.decrypt c out aad w = Crypto.decrypt c out JsUndefined w /\
     Crypto.encryptSync c input aad w = Crypto.encryptSync c input JsUndefined w /\
     Crypto.decryptSync c out aad w = Crypto.decryptSync c out JsUndefined w).
Proof.
  intros Hc.
  destruct (makeCryptoWith_inr _ _ Hc) as (k & _ & ->).
  cbn [Crypto.encrypt Crypto.decrypt Crypto.encryptSync Crypto.decryptSync].
  split; [|split].
  - intros Hn Hs. apply invalid_aad_stops.
    destruct aad; try discriminate Hn; try reflexivity.
    exfalso. eapply Hs. reflexivity.
  - intros ->. now apply invalid_aad_stops.
  - intros Hn.
    assert (Hv : valid_aad aad = true) by (destruct aad; now try discriminate Hn).
    assert (Hb : aad_bytes aad = []) by (destruct aad; now try discriminate Hn).
    split; [now apply validateAAD_valid|]. split.
    + intros s iv key salt w' Hk Hi.
      rewrite encrypt_run by assumption. unfold envelope. now rewrite Hb.
    + destruct aad; try discriminate Hn; repeat split; reflexivity.
Qed.

(** C8 (amended). Construction fails with "encryptionKey is required" exactly
    when the passphrase is missing or is the empty string; with any other
    passphrase (a non-empty string, or any Buffer, the empty one included) it
    returns a codec with the four operations closed over that passphrase. *)
Theorem construction (opts : CryptoOptions) :
  (makeCryptoWith opts = inl (Error "encryptionKey is required") <->
   encryptionKey opts = None \/ encryptionKey opts = Some (Str EmptyString)) /\
  (forall k, encryptionKey opts = Some k -> k <> Str EmptyString ->
     makeCryptoWith opts =
     inr {| Crypto.encrypt := codec_encrypt k;
            Crypto.decrypt := codec_decrypt k;
            Crypto.encryptSync := codec_encryptSync k;
            Crypto.decryptSync := codec_decryptSync k |}).
Proof.
  destruct opts as [[[s|b]|]]; unfold makeCryptoWith, _validateOpts;
    cbn [encryptionKey truthy].
  - destruct s as [|a s]; cbn.
    + split; [split; auto|]. intros k H Hk. injection H as <-. congruence.
    + split.
      * split; [discriminate | intros [H|H]; discriminate H].
      * intros k H _. now injection H as <-.
  - cbn. split.
    + split; [discriminate | intros [H|H]; discriminate H].
    + intros k H _. now injection H as <-.
  - cbn. split; [split; auto|]. intros k H. discriminate H.
Qed.

(** The open path is world-independent: its result is a function of the
    passphrase, the envelope and the AAD, and it draws no randomness. *)
Lemma world_independent_decrypt_parts (key iv tag text : Buffer) (aad : JsValue) :
  world_independent (decrypt_parts key iv tag text aad).
Proof.
  unfold decrypt_parts, createDecipheriv, decipher_setAuthTag, decipher_final.
  apply world_independent_bind.
  { apply world_independent_bind; auto with windep. intros _; cbv beta.
    destruct (negb _); auto with windep.
    destruct (negb _); auto with windep. }
  intros d; cbv beta. apply world_independent_bind.
  { destruct (gcm_tag_length_ok (List.length tag)); auto with windep. }
  intros d'; cbv beta. apply world_independent_bind.
  { destruct (negb _); auto with windep.
    apply world_independent_bind; auto with windep.
    destruct aad; cbn; auto with windep. }
  intros d''; cbv beta. destruct (decipher_update d'' text) as [d3 head].
  apply world_independent_bind.
  { destruct (tag_matches d3); auto with windep. }
  intros tail; cbv beta. apply world_independent_bind; auto with windep.
Qed.

Lemma world_independent_asBuffer (out : StringOrBuffer) :
  world_independent (asBuffer out).
Proof.
  destruct out; cbn; auto with windep.
  apply world_independent_bind; auto with windep.
Qed.

Lemma world_independent_codec_decrypt (k out : StringOrBuffer) (aad : JsValue) :
  world_independent (codec_decrypt k out aad).
Proof.
  unfold codec_decrypt, _generateKey, decrypt.
  apply world_independent_bind; auto with windep. intros _; cbv beta.
  apply world_independent_bind; auto using world_independent_asBuffer.
  intros b; cbv beta. apply world_independent_bind.
  - apply world_independent_bind; auto with windep. intros salt; cbv beta.
    apply world_independent_bind; auto with windep.
  - intros key; cbv beta. apply world_independent_decrypt_parts.
Qed.

Lemma world_independent_codec_decryptSync (k out : StringOrBuffer) (aad : JsValue) :
  world_independent (codec_decryptSync k out aad).
Proof.
  unfold codec_decryptSync, _generateKeySync, decrypt.
  apply world_independent_bind; auto with windep. intros _; cbv beta.
  apply world_independent_bind; auto using world_independent_asBuffer.
  intros b; cbv beta. apply world_independent_bind.
  - apply world_independent_bind; auto with windep. intros salt; cbv beta.
    apply world_independent_bind; auto with windep.
  - intros key; cbv beta. apply world_independent_decrypt_parts.
Qed.

(** C9. Decryption is deterministic: decrypt and decryptSync, run twice with
    the same envelope and AAD on the same codec, give the same outcome (the
    same value or the same error) whatever the state of the random source,
    and they draw nothing from it. *)
Theorem decrypt_deterministic (opts : CryptoOptions) (c : Crypto.t)
    (out : StringOrBuffer) (aad : JsValue) (w1 w2 : World) :
  makeCryptoWith opts = inr c ->
  fst (Crypto.decryptSync c out aad w1) = fst (Crypto.decryptSync c out aad w2) /\
  fst (Crypto.decrypt c out aad w1) = fst (Crypto.decrypt c out aad w2) /\
  consumed (snd (Crypto.decryptSync c out aad w1)) = consumed w1 /\
  consumed (snd (Crypto.decrypt c out aad w1)) = consumed w1.
Proof.
  intros Hc. destruct (makeCryptoWith_inr _ _ Hc) as (k & _ & ->).
  cbn [Crypto.decrypt Crypto.decryptSync].
  pose proof (world_independent_codec_decrypt k out aad) as Ha.
  pose proof (world_independent_codec_decryptSync k out aad) as Hs.
  repeat split;
    auto using world_independent_fst, world_independent_consumed.
Qed.

Lemma bind_fails {A B} (m : M A) (k : A -> M B) (w : World) :
  (forall a w', exists e, fst (k a w') = inl e) ->
  exists e, fst (bind m k w) = inl e.
Proof.
  intros H. unfold bind. destruct (m w) as [[e|a] w']; cbn; eauto.
Qed.

(** With an empty ciphertext the decrypted text is empty, so whatever the
    decipher decides, no value comes out. *)
Lemma decrypt_parts_empty (key iv tag : Buffer) (aad : JsValue) (w : World) :
  exists e, fst (decrypt_parts key iv tag [] aad w) = inl e.
Proof.
  destruct JSON_parse_empty as [e0 He0].
  unfold decrypt_parts.
  apply bind_fails; intros d1 w1.
  apply bind_fails; intros d2 w2.
  apply bind_fails; intros d3 w3.
  cbn [decipher_update xor_stream Buffer_toString_utf8 string_of_list_ascii].
  unfold decipher_final. destruct (tag_matches _).
  - unfold bind, ret, log, lift. cbn. rewrite He0. eauto.
  - cbn. eauto.
Qed.

(** The same run in full.  With an empty ciphertext the text is parsed only
    when the decipher accepted the lengths of IV and tag and the tag is the
    leading part of the tag of the empty ciphertext; the exception is then
    the one [JSON.parse] throws for the empty text. *)
Lemma decrypt_parts_empty_run (key iv tag : Buffer) (aad : JsValue) (w : World) :
  valid_aad aad = true ->
  exists e evs,
    decrypt_parts key iv tag [] aad w = (inl e, after w evs) /\
    (In JsonParse evs ->
       JSON_parse EmptyString = inl e /\
       gcm_iv_length_ok (List.length iv) = true /\
       gcm_tag_length_ok (List.length tag) = true /\
       1 <= List.length tag /\
       tag = firstn (List.length tag) (gcm_tag key iv (aad_bytes aad) [])).
Proof.
  intros Ha. destruct JSON_parse_empty as [e0 He0].
  (* the runs that stop before the text is parsed *)
  assert (Hstop : forall e,
            exists e' evs,
              (@inl exn JsValue e, after w [CreateDecipheriv key iv])
                = (inl e', after w evs) /\
              (In JsonParse evs ->
               JSON_parse EmptyString = inl e' /\
               gcm_iv_length_ok (List.length iv) = true /\
               gcm_tag_length_ok (List.length tag) = true /\
               1 <= List.length tag /\
               tag = firstn (List.length tag)
                       (gcm_tag key iv (aad_bytes aad) []))).
  { intros e. exists e, [CreateDecipheriv key iv]. split; [reflexivity|].
    intros [H|[]]. discriminate H. }
  unfold decrypt_parts, createDecipheriv, decipher_setAuthTag, bind, log.
  cbn [ret throw].
  destruct (negb (Nat.eqb (List.length key) KEY_LENGTH_IN_BYTES));
    [apply Hstop|].
  destruct (gcm_iv_length_ok (List.length iv)) eqn:Hiv; cbn [negb];
    [|apply Hstop].
  cbn [decipher_key decipher_iv decipher_aad decipher_tag decipher_text].
  destruct (gcm_tag_length_ok (List.length tag)) eqn:Htl; [|apply Hstop].
  destruct aad; try discriminate Ha;
    cbn [is_nullish negb ret Buffer_from_aad bind];
    unfold bind, decipher_final, tag_matches;
    cbn [ret decipher_update decipher_setAAD xor_stream Buffer_toString_utf8
         string_of_list_ascii decipher_key decipher_iv decipher_aad
         decipher_tag decipher_text app aad_bytes];
    (destruct (Nat.leb 1 (List.length tag)) eqn:Hl1; cbn [andb];
     [destruct (buffer_eqb tag _) eqn:Heq|]; try apply Hstop;
     cbn [ret log lift]; cbn; rewrite He0;
     exists e0, [CreateDecipheriv key iv; JsonParse];
     (split; [unfold after; cbn; now rewrite <- app_assoc|]);
     intros _; apply buffer_eqb_eq in Heq; apply Nat.leb_le in Hl1; auto).
Qed.
Lemma not_parsed_yet (pre : list Event) (ev : Event) (evs : list Event) :
  (pre = [] \/ pre = [BufferFromBase64]) -> ev <> JsonParse ->
  In JsonParse ((pre ++ [ev]) ++ evs) -> In JsonParse evs.
Proof.
  intros Hpre Hev H. apply in_app_or in H as [H|H]; [exfalso|exact H].
  apply in_app_or in H as [H|[H|[]]]; [|congruence].
  destruct Hpre as [->| ->]; [destruct H|].
  destruct H as [H|[]]. discriminate H.
Qed.

(** C10 (amended). If the byte form of the input is shorter than 92 bytes,
    decrypt and decryptSync fail with an exception and return no value.
    Either the input is rejected before the decrypted text is parsed (by AAD
    validation, the key derivation, the decipher setup or the tag check), or
    the decipher accepted the short IV and tag, the tag authenticates the
    empty ciphertext, and the exception is the one JSON.parse throws for the
    empty text. *)
Theorem short_envelope_rejected (opts : CryptoOptions) (c : Crypto.t)
    (out : StringOrBuffer) (aad : JsValue) (w : World) :
  makeCryptoWith opts = inr c ->
  List.length (decoded out) < 92 ->
  let iv := slice (decoded out) 64 76 in
  let tag := slice (decoded out) 76 92 in
  let rejected (r : (exn + JsValue) * World) :=
    exists e evs,
      r = (inl e, after w evs) /\
      (In JsonParse evs ->
         JSON_parse EmptyString = inl e /\
         gcm_iv_length_ok (List.length iv) = true /\
         gcm_tag_length_ok (List.length tag) = true /\
         exists key,
           1 <= List.length tag /\
           tag = firstn (List.length tag) (gcm_tag key iv (aad_bytes aad) [])) in
  rejected (Crypto.decrypt c out aad w) /\
  rejected (Crypto.decryptSync c out aad w).
Proof.
  intros Hc Hshort iv tag rejected.
  destruct (makeCryptoWith_inr _ _ Hc) as (k & _ & ->).
  cbn [Crypto.decrypt Crypto.decryptSync]. subst rejected. cbv beta.
  destruct (valid_aad aad) eqn:Ha.
  - set (pre := match out with Buf _ => [] | Str _ => [BufferFromBase64] end).
    assert (Hpre : pre = [] \/ pre = [BufferFromBase64])
      by (destruct out; auto).
    assert (Hd : forall key ev, ev <> JsonParse ->
              exists e evs,
                decrypt key (decoded out) aad (after w (pre ++ [ev]))
                  = (inl e, after w evs) /\
                (In JsonParse evs ->
                   JSON_parse EmptyString = inl e /\
                   gcm_iv_length_ok (List.length iv) = true /\
                   gcm_tag_length_ok (List.length tag) = true /\
                   exists key0,
                     1 <= List.length tag /\
                     tag = firstn (List.length tag)
                             (gcm_tag key0 iv (aad_bytes aad) []))).
    { intros key ev Hev. unfold decrypt, slice_from.
      rewrite (skipn_all2 (decoded out)) by (cbn; lia).
      destruct (decrypt_parts_empty_run key iv tag aad (after w (pre ++ [ev])) Ha)
        as (e & evs & Hrun & Hparsed).
      exists e, ((pre ++ [ev]) ++ evs). split.
      - rewrite <- (after_after w (pre ++ [ev]) evs). exact Hrun.
      - intros Hin. apply not_parsed_yet in Hin; auto.
        destruct (Hparsed Hin) as (H1 & H2 & H3 & H4 & H5).
        do 3 (split; [assumption|]). exists key. now split. }
    split.
    + unfold codec_decrypt.
      erewrite bind_inr by (unfold lift; now rewrite validateAAD_valid).
      erewrite bind_inr by apply asBuffer_run.
      unfold _generateKey at 1. unfold bind at 1.
      cbn [ret bind log lift].
      destruct (crypto_pbkdf2 _ _ _ _ _) as [err|key].
      * exists err, (pre ++ [Pbkdf2 (binary_like k)
                                      (slice (decoded out) 0 SALT_LENGTH_IN_BYTES)]).
        split; [unfold after; cbn; now rewrite <- app_assoc|].
        intros Hin. exfalso.
        apply in_app_or in Hin as [Hin|[Hin|[]]]; [|discriminate Hin].
        destruct Hpre as [E|E]; rewrite E in Hin; [destruct Hin|].
        destruct Hin as [Hin|[]]; discriminate Hin.
      * destruct (Hd key (Pbkdf2 (binary_like k)
                                 (slice (decoded out) 0 SALT_LENGTH_IN_BYTES)))
          as (e & evs & Hrun & Hp); [discriminate|].
        exists e, evs. split; [|exact Hp].
        rewrite <- Hrun. f_equal. unfold after; cbn. now rewrite <- app_assoc.
    + unfold codec_decryptSync.
      erewrite bind_inr by (unfold lift; now rewrite validateAAD_valid).
      erewrite bind_inr by apply asBuffer_run.
      erewrite bind_inr by apply generateKeySync_run.
      rewrite after_after. apply Hd. discriminate.
  - destruct (validateAAD_invalid aad Ha) as [x Hx].
    destruct (invalid_aad_stops k aad x Hx JsUndefined out w)
      as (_ & -> & _ & ->).
    split; exists x, []; (split; [now rewrite after_nil | intros []]).
Qed.

(** ** Further properties *)

(** X1. A successful seal draws exactly 76 fresh bytes from the random source
    (64 of salt and 12 of IV) and makes these library calls, in this order:
    the asynchronous form draws the salt, serializes, draws the IV, derives
    the key and creates the cipher; the synchronous form serializes, draws
    the IV, draws the salt, derives the key and creates the cipher. *)
Theorem seal_call_sequence (opts : CryptoOptions) (c : Crypto.t)
    (k : StringOrBuffer) (v : JsValue) (s : string) (aad : JsValue) (w : World) :
  makeCryptoWith opts = inr c -> encryptionKey opts = Some k ->
  valid_aad aad = true -> JSON_stringify v = inr (Some s) ->
  snd (Crypto.encrypt c v aad w) =
    mkWorld (entropy w) (consumed w + 64 + 12)
      (trace w ++ [RandomBytes 64; JsonStringify; RandomBytes 12;
                   Pbkdf2 (binary_like k) (upcoming w 0 64);
                   CreateCipheriv (derive k (upcoming w 0 64)) (upcoming w 64 12)]) /\
  snd (Crypto.encryptSync c v aad w) =
    mkWorld (entropy w) (consumed w + 12 + 64)
      (trace w ++ [JsonStringify; RandomBytes 12; RandomBytes 64;
                   Pbkdf2Sync (binary_like k) (upcoming w 12 64);
                   CreateCipheriv (derive k (upcoming w 12 64)) (upcoming w 0 12)]).
Proof.
  intros Hc Hk Ha Hs.
  destruct (makeCryptoWith_inr _ _ Hc) as (k' & Hk' & ->).
  rewrite Hk in Hk'. injection Hk' as <-.
  cbn [Crypto.encrypt Crypto.encryptSync]. split.
  - unfold codec_encrypt, _generateSalt, _generateIV.
    erewrite bind_inr by (unfold lift; now rewrite validateAAD_valid).
    erewrite bind_inr by apply randomBytes_run.
    erewrite bind_inr by (rewrite serialize_run, Hs; reflexivity).
    erewrite bind_inr by apply randomBytes_run.
    erewrite bind_inr by (apply generateKey_run; assumption).
    rewrite encrypt_run;
      auto using derive_length, upcoming_length.
    unfold after; cbn [snd entropy consumed trace].
    rewrite upcoming_shift. f_equal.
    rewrite <- !app_assoc. reflexivity.
  - unfold codec_encryptSync, _generateSalt, _generateIV.
    erewrite bind_inr by (unfold lift; now rewrite validateAAD_valid).
    erewrite bind_inr by (rewrite serialize_run, Hs; reflexivity).
    erewrite bind_inr by apply randomBytes_run.
    erewrite bind_inr by apply randomBytes_run.
    erewrite bind_inr by apply generateKeySync_run.
    rewrite encrypt_run;
      auto using derive_length, upcoming_length.
    unfold after; cbn [snd entropy consumed trace].
    rewrite upcoming_shift. f_equal.
    rewrite <- !app_assoc. reflexivity.
Qed.

Lemma codec_decrypt_decoded (k out : StringOrBuffer) (aad : JsValue) (w : World) :
  _validateAAD aad = inr tt ->
  exists w',
    codec_decrypt k out aad w =
    bind (_generateKey k (Buf (slice (decoded out) 0 SALT_LENGTH_IN_BYTES)))
         (fun key => decrypt key (decoded out) aad) w' /\
    codec_decryptSync k out aad w =
    bind (_generateKeySync k (Buf (slice (decoded out) 0 SALT_LENGTH_IN_BYTES)))
         (fun key => decrypt key (decoded out) aad) w'.
Proof.
  intros Hv. eexists. unfold codec_decrypt, codec_decryptSync. split.
  - erewrite bind_inr by (unfold lift; now rewrite Hv).
    erewrite bind_inr by apply asBuffer_run. reflexivity.
  - erewrite bind_inr by (unfold lift; now rewrite Hv).
    erewrite bind_inr by apply asBuffer_run. reflexivity.
Qed.

Lemma world_independent_derive_then_decrypt (k : StringOrBuffer) (b : Buffer)
                                            (aad : JsValue) :
  world_independent
    (bind (_generateKey k (Buf (slice b 0 SALT_LENGTH_IN_BYTES)))
          (fun key => decrypt key b aad)) /\
  world_independent
    (bind (_generateKeySync k (Buf (slice b 0 SALT_LENGTH_IN_BYTES)))
          (fun key => decrypt key b aad)).
Proof.
  unfold _generateKey, _generateKeySync, decrypt.
  split; apply world_independent_bind;
    try (intros key; cbv beta; apply world_independent_decrypt_parts);
    (apply world_independent_bind; auto with windep; intros salt; cbv beta;
     apply world_independent_bind; auto with windep).
Qed.

(** X2. An envelope is decrypted the same way whether it is handed over as
    base64 text or as the bytes that text decodes to. *)
Theorem text_or_bytes (opts : CryptoOptions) (c : Crypto.t) (s : string)
                      (aad : JsValue) (w w' : World) :
  makeCryptoWith opts = inr c ->
  fst (Crypto.decrypt c (Str s) aad w)
  = fst (Crypto.decrypt c (Buf (Base64.decode s)) aad w') /\
  fst (Crypto.decryptSync c (Str s) aad w)
  = fst (Crypto.decryptSync c (Buf (Base64.decode s)) aad w').
Proof.
  intros Hc. destruct (makeCryptoWith_inr _ _ Hc) as (k & _ & ->).
  cbn [Crypto.decrypt Crypto.decryptSync].
  destruct (_validateAAD aad) as [x|[]] eqn:Hv.
  - destruct (invalid_aad_stops k aad x Hv JsUndefined (Str s) w)
      as (_ & -> & _ & ->).
    destruct (invalid_aad_stops k aad x Hv JsUndefined (Buf (Base64.decode s)) w')
      as (_ & -> & _ & ->).
    split; reflexivity.
  - destruct (codec_decrypt_decoded k (Str s) aad w Hv) as (w1 & -> & ->).
    destruct (codec_decrypt_decoded k (Buf (Base64.decode s)) aad w' Hv)
      as (w2 & -> & ->).
    cbn [decoded].
    destruct (world_independent_derive_then_decrypt k (Base64.decode s) aad)
      as [Hasync Hsync].
    split; now apply world_independent_fst.
Qed.
(** ** More on the four operations *)

Lemma bind_ext {A B} (m : M A) (k k' : A -> M B) (w : World) :
  (forall a w', k a w' = k' a w') -> bind m k w = bind m k' w.
Proof.
  intros H. unfold bind. destruct (m w) as [[e|a] w']; [reflexivity | apply H].
Qed.

(** Inputs shorter than 92 bytes never open. *)
Lemma short_input_fails (k out : StringOrBuffer) (aad : JsValue) (w : World) :
  List.length (decoded out) < 92 ->
  (exists e, fst (codec_decrypt k out aad w) = inl e) /\
  (exists e, fst (codec_decryptSync k out aad w) = inl e).
Proof.
  intros Hshort. destruct (_validateAAD aad) as [x|[]] eqn:Hv.
  - destruct (invalid_aad_stops k aad x Hv JsUndefined out w)
      as (_ & -> & _ & ->).
    cbn; eauto.
  - assert (Hd : forall key w', exists e,
                 fst (decrypt key (decoded out) aad w') = inl e).
    { intros key w'. unfold decrypt, slice_from.
      rewrite (skipn_all2 (decoded out)) by (cbn; lia).
      apply decrypt_parts_empty. }
    destruct (codec_decrypt_decoded k out aad w Hv) as (w1 & -> & ->).
    split; apply bind_fails; intros key w'; apply Hd.
Qed.

(** X3. decrypt and decryptSync return a value only for an authenticated
    envelope: the AAD passed validation, the input has at least 92 bytes and
    the stored tag equals the tag recomputed over the derived key, the
    stored IV, the AAD and the stored ciphertext.  When the decrypted bytes
    are well-formed UTF-8, the value is what JSON.parse makes of the text
    they encode. *)
Theorem decrypt_success_authenticated (opts : CryptoOptions) (c : Crypto.t)
    (k out : StringOrBuffer) (aad : JsValue) (w : World) (v : JsValue) :
  makeCryptoWith opts = inr c -> encryptionKey opts = Some k ->
  fst (Crypto.decrypt c out aad w) = inr v \/
  fst (Crypto.decryptSync c out aad w) = inr v ->
  let b := decoded out in
  let plain := xor_stream (gcm_keystream (derive k (slice b 0 64))
                                         (slice b 64 76)) 0
                          (slice_from b 92) in
  valid_aad aad = true /\
  92 <= List.length b /\
  slice b 76 92 = recomputed_tag k b aad /\
  (utf8_wf plain = true -> JSON_parse (Buffer_toString_utf8 plain) = inr v).
Proof.
  intros Hc Hk Hv b plain.
  destruct (makeCryptoWith_inr _ _ Hc) as (k' & Hk' & ->).
  rewrite Hk in Hk'. injection Hk' as <-.
  cbn [Crypto.decrypt Crypto.decryptSync] in Hv.
  assert (Ha : valid_aad aad = true).
  { destruct (valid_aad aad) eqn:Ha; [reflexivity|]. exfalso.
    destruct (validateAAD_invalid aad Ha) as [x Hx].
    destruct (invalid_aad_stops k aad x Hx JsUndefined out w)
      as (_ & H1 & _ & H2).
    rewrite H1, H2 in Hv. destruct Hv as [Hv|Hv]; discriminate Hv. }
  assert (Hb : 92 <= List.length b).
  { destruct (Nat.le_gt_cases 92 (List.length b)) as [H|H]; [exact H|].
    exfalso. destruct (short_input_fails k out aad w H) as ((e1 & H1) & (e2 & H2)).
    rewrite H1, H2 in Hv. destruct Hv as [Hv|Hv]; discriminate Hv. }
  assert (Hd : fst (decrypt (derive k (slice b 0 64)) b aad w) = inr v).
  { destruct Hv as [Hv|Hv].
    - now rewrite codec_decrypt_fst in Hv.
    - now rewrite codec_decryptSync_fst in Hv. }
  rewrite decrypt_fst in Hd by auto using derive_length.
  fold (recomputed_tag k b aad) in Hd.
  destruct (buffer_eqb (slice b 76 92) (recomputed_tag k b aad)) eqn:E;
    [|discriminate Hd].
  apply buffer_eqb_eq in E. auto.
Qed.

(** X4. The two forms open each other's envelopes: what the asynchronous
    encrypt returned is decrypted by decryptSync, and what encryptSync
    returned by the asynchronous decrypt, from the base64 text or from its
    bytes. *)
Theorem cross_form_roundtrip (opts : CryptoOptions) (c : Crypto.t)
    (v aad : JsValue) (w : World) :
  makeCryptoWith opts = inr c ->
  valid_aad aad = true ->
  serializable v ->
  (exists e, fst (Crypto.encrypt c v aad w) = inr e /\
     forall w',
       fst (Crypto.decryptSync c (Str e) aad w') = inr v /\
       fst (Crypto.decryptSync c (Buf (Base64.decode e)) aad w') = inr v) /\
  (exists e, fst (Crypto.encryptSync c v aad w) = inr e /\
     forall w',
       fst (Crypto.decrypt c (Str e) aad w') = inr v /\
       fst (Crypto.decrypt c (Buf (Base64.decode e)) aad w') = inr v).
Proof.
  intros Hc Ha (s & Hs & Hp).
  destruct (makeCryptoWith_inr _ _ Hc) as (k & _ & ->).
  cbn [Crypto.encrypt Crypto.decrypt Crypto.encryptSync Crypto.decryptSync].
  split; eexists; (split; [eauto using codec_encrypt_fst, codec_encryptSync_fst|]);
    intros w'.
  - assert (Hl : List.length (upcoming w 0 64) = 64) by apply upcoming_length.
    assert (Hi : List.length (upcoming w 64 12) = 12) by apply upcoming_length.
    destruct (envelope_slices (derive k (upcoming w 0 64)) _ _ aad s Hl Hi)
      as (E1 & _ & _ & _ & El).
    rewrite !codec_decryptSync_fst;
      cbn [decoded]; rewrite ?Base64Facts.decode_encode; auto; try lia.
    rewrite E1, open_sealed; auto using derive_length.
  - assert (Hl : List.length (upcoming w 12 64) = 64) by apply upcoming_length.
    assert (Hi : List.length (upcoming w 0 12) = 12) by apply upcoming_length.
    destruct (envelope_slices (derive k (upcoming w 12 64)) _ _ aad s Hl Hi)
      as (E1 & _ & _ & _ & El).
    rewrite !codec_decrypt_fst;
      cbn [decoded]; rewrite ?Base64Facts.decode_encode; auto; try lia.
    rewrite E1, open_sealed; auto using derive_length.
Qed.

Lemma decrypt_run (key b : Buffer) (aad : JsValue) (w : World) :
  valid_aad aad = true -> List.length key = 32 -> 92 <= List.length b ->
  decrypt key b aad w =
  if buffer_eqb (slice b 76 92)
                (gcm_tag key (slice b 64 76) (aad_bytes aad) (slice_from b 92))
  then (JSON_parse (Buffer_toString_utf8
                      (xor_stream (gcm_keystream key (slice b 64 76)) 0
                                  (slice_from b 92))),
        after w [CreateDecipheriv key (slice b 64 76); JsonParse])
  else (inl (Error AUTH_FAILURE),
        after w [CreateDecipheriv key (slice b 64 76)]).
Proof.
  intros Ha Hk Hb. unfold decrypt.
  change (SALT_LENGTH_IN_BYTES + IV_LENGTH_IN_BYTES + 16) with 92.
  change (SALT_LENGTH_IN_BYTES + IV_LENGTH_IN_BYTES) with 76.
  change SALT_LENGTH_IN_BYTES with 64.
  apply decrypt_parts_run; auto; rewrite slice_length; lia.
Qed.

(** X5. The library calls of a decrypt on an envelope of at least 92 bytes
    with a valid AAD: base64 decoding (for a text input), one key derivation
    from the first 64 bytes, one decipher; JSON.parse is called only when the
    tag check has passed.  On a tag mismatch the authentication error is
    thrown and the decrypted text is never parsed. *)
Theorem open_call_sequence (opts : CryptoOptions) (c : Crypto.t)
    (k out : StringOrBuffer) (aad : JsValue) (w : World) :
  makeCryptoWith opts = inr c -> encryptionKey opts = Some k ->
  valid_aad aad = true -> 92 <= List.length (decoded out) ->
  let b := decoded out in
  let key := derive k (slice b 0 64) in
  let pre := match out with Buf _ => [] | Str _ => [BufferFromBase64] end in
  (slice b 76 92 <> recomputed_tag k b aad ->
     Crypto.decrypt c out aad w =
       (inl (Error AUTH_FAILURE),
        after w (pre ++ [Pbkdf2 (binary_like k) (slice b 0 64);
                         CreateDecipheriv key (slice b 64 76)])) /\
     Crypto.decryptSync c out aad w =
       (inl (Error AUTH_FAILURE),
        after w (pre ++ [Pbkdf2Sync (binary_like k) (slice b 0 64);
                         CreateDecipheriv key (slice b 64 76)]))) /\
  (slice b 76 92 = recomputed_tag k b aad ->
     snd (Crypto.decrypt c out aad w) =
       after w (pre ++ [Pbkdf2 (binary_like k) (slice b 0 64);
                        CreateDecipheriv key (slice b 64 76); JsonParse]) /\
     snd (Crypto.decryptSync c out aad w) =
       after w (pre ++ [Pbkdf2Sync (binary_like k) (slice b 0 64);
                        CreateDecipheriv key (slice b 64 76); JsonParse])).
Proof.
  intros Hc Hk Ha Hb b key pre.
  destruct (makeCryptoWith_inr _ _ Hc) as (k' & Hk' & ->).
  rewrite Hk in Hk'. injection Hk' as <-.
  cbn [Crypto.decrypt Crypto.decryptSync].
  assert (Hrun : forall w0, decrypt key b aad w0 =
     if buffer_eqb (slice b 76 92) (recomputed_tag k b aad)
     then (JSON_parse (Buffer_toString_utf8
                         (xor_stream (gcm_keystream key (slice b 64 76)) 0
                                     (slice_from b 92))),
           after w0 [CreateDecipheriv key (slice b 64 76); JsonParse])
     else (inl (Error AUTH_FAILURE),
           after w0 [CreateDecipheriv key (slice b 64 76)])).
  { intros w0. apply decrypt_run; auto. apply derive_length. }
  assert (Hasync : codec_decrypt k out aad w =
                   decrypt key b aad
                     (after w (pre ++ [Pbkdf2 (binary_like k) (slice b 0 64)]))).
  { unfold codec_decrypt.
    erewrite bind_inr by (unfold lift; now rewrite validateAAD_valid).
    erewrite bind_inr by apply asBuffer_run.
    erewrite bind_inr by apply generateKey_run.
    now rewrite after_after. }
  assert (Hsync : codec_decryptSync k out aad w =
                  decrypt key b aad
                    (after w (pre ++ [Pbkdf2Sync (binary_like k) (slice b 0 64)]))).
  { unfold codec_decryptSync.
    erewrite bind_inr by (unfold lift; now rewrite validateAAD_valid).
    erewrite bind_inr by apply asBuffer_run.
    erewrite bind_inr by apply generateKeySync_run.
    now rewrite after_after. }
  rewrite Hasync, Hsync, !Hrun. split.
  - intros Hne. rewrite (buffer_eqb_neq _ _ Hne), !after_after, <- !app_assoc.
    split; reflexivity.
  - intros Heq. rewrite Heq, buffer_eqb_refl. cbn [snd].
    rewrite !after_after, <- !app_assoc. split; reflexivity.
Qed.

Lemma codec_encrypt_run (k : StringOrBuffer) (v : JsValue) (s : string)
                        (aad : JsValue) (w : World) :
  valid_aad aad = true -> JSON_stringify v = inr (Some s) ->
  codec_encrypt k v aad w =
  (inr (Base64.encode
          (envelope (derive k (upcoming w 0 64)) (upcoming w 64 12)
                    (upcoming w 0 64) aad s)),
   mkWorld (entropy w) (consumed w + 64 + 12)
     (trace w ++ [RandomBytes 64; JsonStringify; RandomBytes 12;
                  Pbkdf2 (binary_like k) (upcoming w 0 64);
                  CreateCipheriv (derive k (upcoming w 0 64))
                                 (upcoming w 64 12)])).
Proof.
  intros Ha Hs. unfold codec_encrypt, _generateSalt, _generateIV.
  erewrite bind_inr by (unfold lift; now rewrite validateAAD_valid).
  erewrite bind_inr by apply randomBytes_run.
  erewrite bind_inr by (rewrite serialize_run, Hs; reflexivity).
  erewrite bind_inr by apply randomBytes_run.
  erewrite bind_inr by apply generateKey_run.
  rewrite encrypt_run; auto using derive_length, upcoming_length.
  unfold after; cbn [entropy consumed trace].
  rewrite upcoming_shift. f_equal. f_equal.
  rewrite <- !app_assoc. reflexivity.
Qed.

Lemma upcoming_after (w : World) (a b off m : nat) (t : list Event) :
  upcoming (mkWorld (entropy w) (consumed w + a + b) t) off m
  = upcoming w (a + b + off) m.
Proof. unfold upcoming; simpl. f_equal. f_equal. lia. Qed.

(** X8. Successive seals never reuse randomness: the second of two encrypt
    calls takes its salt and IV from the 76 bytes of the random source that
    follow the 76 bytes the first call took, and each envelope carries the
    salt and IV of its own call; so the two envelopes differ as soon as the
    random source gave different salts or different IVs. *)
Theorem successive_seals_fresh (opts : CryptoOptions) (c : Crypto.t)
    (v1 v2 : JsValue) (s1 s2 : string) (aad1 aad2 : JsValue) (w : World) :
  makeCryptoWith opts = inr c ->
  valid_aad aad1 = true -> valid_aad aad2 = true ->
  JSON_stringify v1 = inr (Some s1) -> JSON_stringify v2 = inr (Some s2) ->
  exists e1 e2 w1,
    Crypto.encrypt c v1 aad1 w = (inr e1, w1) /\
    fst (Crypto.encrypt c v2 aad2 w1) = inr e2 /\
    slice (Base64.decode e1) 0 64 = upcoming w 0 64 /\
    slice (Base64.decode e1) 64 76 = upcoming w 64 12 /\
    slice (Base64.decode e2) 0 64 = upcoming w 76 64 /\
    slice (Base64.decode e2) 64 76 = upcoming w 140 12 /\
    (upcoming w 0 64 <> upcoming w 76 64 \/
     upcoming w 64 12 <> upcoming w 140 12 -> e1 <> e2).
Proof.
  intros Hc Ha1 Ha2 Hs1 Hs2.
  destruct (makeCryptoWith_inr _ _ Hc) as (k & _ & ->).
  cbn [Crypto.encrypt].
  do 3 eexists. split; [apply (codec_encrypt_run k v1 s1 aad1 w Ha1 Hs1)|].
  rewrite (codec_encrypt_run k v2 s2 aad2 _ Ha2 Hs2). cbn [fst].
  split; [reflexivity|].
  rewrite !Base64Facts.decode_encode, !upcoming_after.
  change (64 + 12 + 0) with 76. change (64 + 12 + 64) with 140.
  destruct (envelope_slices (derive k (upcoming w 0 64)) (upcoming w 64 12)
              (upcoming w 0 64) aad1 s1
              (upcoming_length _ _ _) (upcoming_length _ _ _))
    as (E1 & E2 & _).
  destruct (envelope_slices (derive k (upcoming w 76 64)) (upcoming w 140 12)
              (upcoming w 76 64) aad2 s2
              (upcoming_length _ _ _) (upcoming_length _ _ _))
    as (F1 & F2 & _).
  do 4 (split; [assumption|]).
  intros Hdiff Heq. apply (f_equal Base64.decode) in Heq.
  rewrite !Base64Facts.decode_encode in Heq. rewrite Heq in E1, E2.
  destruct Hdiff as [H|H]; apply H; congruence.
Qed.

(** X9. An error reported by the asynchronous key derivation is passed on
    unchanged: encrypt and decrypt reject with it, no cipher or decipher is
    created and nothing is parsed. *)
Theorem derivation_error_propagates (opts : CryptoOptions) (c : Crypto.t)
    (k : StringOrBuffer) (v : JsValue) (s : string) (aad : JsValue)
    (out : StringOrBuffer) (w : World) (err : exn) :
  makeCryptoWith opts = inr c -> encryptionKey opts = Some k ->
  valid_aad aad = true -> JSON_stringify v = inr (Some s) ->
  (forall salt, crypto_pbkdf2 (binary_like k) salt KEY_ITERATIONS
                  KEY_LENGTH_IN_BYTES KEY_DIGEST = inl err) ->
  Crypto.encrypt c v aad w =
    (inl err,
     mkWorld (entropy w) (consumed w + 64 + 12)
       (trace w ++ [RandomBytes 64; JsonStringify; RandomBytes 12;
                    Pbkdf2 (binary_like k) (upcoming w 0 64)])) /\
  Crypto.decrypt c out aad w =
    (inl err,
     after w (match out with Buf _ => [] | Str _ => [BufferFromBase64] end
              ++ [Pbkdf2 (binary_like k) (slice (decoded out) 0 64)])).
Proof.
  intros Hc Hk Ha Hs Herr.
  destruct (makeCryptoWith_inr _ _ Hc) as (k' & Hk' & ->).
  rewrite Hk in Hk'. injection Hk' as <-.
  cbn [Crypto.encrypt Crypto.decrypt].
  assert (Hgen : forall salt w0,
             _generateKey k (Buf salt) w0 =
             (inl err, after w0 [Pbkdf2 (binary_like k) salt])).
  { intros salt w0. unfold _generateKey, bind, ret, log, lift.
    now rewrite Herr. }
  split.
  - unfold codec_encrypt, _generateSalt, _generateIV.
    erewrite bind_inr by (unfold lift; now rewrite validateAAD_valid).
    erewrite bind_inr by apply randomBytes_run.
    erewrite bind_inr by (rewrite serialize_run, Hs; reflexivity).
    erewrite bind_inr by apply randomBytes_run.
    erewrite bind_inl by apply Hgen.
    unfold after; cbn [entropy consumed trace]. f_equal. f_equal.
    rewrite <- !app_assoc. reflexivity.
  - unfold codec_decrypt.
    erewrite bind_inr by (unfold lift; now rewrite validateAAD_valid).
    erewrite bind_inr by apply asBuffer_run.
    erewrite bind_inl by apply Hgen.
    now rewrite after_after.
Qed.

(** X10. The AAD is bound to the envelope but not stored in it: sealing the
    same value with the same salt and IV under two AADs gives envelopes of
    the same length with the same salt, IV and ciphertext; only the tag bytes
    [76,92) can differ. *)
Theorem aad_only_in_tag (opts : CryptoOptions) (c : Crypto.t)
    (v aad1 aad2 : JsValue) (w : World) (e1 e2 : string) :
  makeCryptoWith opts = inr c ->
  (fst (Crypto.encrypt c v aad1 w) = inr e1 /\
   fst (Crypto.encrypt c v aad2 w) = inr e2) \/
  (fst (Crypto.encryptSync c v aad1 w) = inr e1 /\
   fst (Crypto.encryptSync c v aad2 w) = inr e2) ->
  List.length (Base64.decode e1) = List.length (Base64.decode e2) /\
  slice (Base64.decode e1) 0 64 = slice (Base64.decode e2) 0 64 /\
  slice (Base64.decode e1) 64 76 = slice (Base64.decode e2) 64 76 /\
  slice_from (Base64.decode e1) 92 = slice_from (Base64.decode e2) 92.
Proof.
  intros Hc H.
  destruct (makeCryptoWith_inr _ _ Hc) as (k & _ & ->).
  cbn [Crypto.encrypt Crypto.encryptSync] in H.
  assert (Hsame : exists key iv salt s,
             List.length salt = 64 /\ List.length iv = 12 /\
             e1 = Base64.encode (envelope key iv salt aad1 s) /\
             e2 = Base64.encode (envelope key iv salt aad2 s)).
  { destruct H as [[H1 H2]|[H1 H2]].
    - destruct (codec_encrypt_inr _ _ _ _ _ H1) as (Ha1 & s & Hs).
      destruct (codec_encrypt_inr _ _ _ _ _ H2) as (Ha2 & _).
      rewrite (codec_encrypt_fst k v s aad1 w Ha1 Hs) in H1.
      rewrite (codec_encrypt_fst k v s aad2 w Ha2 Hs) in H2.
      injection H1 as <-. injection H2 as <-.
      do 4 eexists. repeat split; auto using upcoming_length.
    - destruct (codec_encryptSync_inr _ _ _ _ _ H1) as (Ha1 & s & Hs).
      destruct (codec_encryptSync_inr _ _ _ _ _ H2) as (Ha2 & _).
      rewrite (codec_encryptSync_fst k v s aad1 w Ha1 Hs) in H1.
      rewrite (codec_encryptSync_fst k v s aad2 w Ha2 Hs) in H2.
      injection H1 as <-. injection H2 as <-.
      do 4 eexists. repeat split; auto using upcoming_length. }
  destruct Hsame as (key & iv & salt & s & Hl & Hi & -> & ->).
  rewrite !Base64Facts.decode_encode.
  destruct (envelope_slices key iv salt aad1 s Hl Hi) as (A1 & A2 & _ & A4 & A5).
  destruct (envelope_slices key iv salt aad2 s Hl Hi) as (B1 & B2 & _ & B4 & B5).
  rewrite A1, A2, A4, A5, B1, B2, B4, B5. auto.
Qed.


Lemma encrypt_ignores_trace (k : StringOrBuffer) (v aad : JsValue) (w : World)
                            (evs : list Event) :
  fst (codec_encrypt k v aad (after w evs)) = fst (codec_encrypt k v aad w) /\
  fst (codec_encryptSync k v aad (after w evs))
    = fst (codec_encryptSync k v aad w).
Proof.
  destruct (_validateAAD aad) as [x|[]] eqn:Hv.
  - destruct (invalid_aad_stops k aad x Hv v (Str EmptyString) w)
      as (-> & _ & -> & _).
    destruct (invalid_aad_stops k aad x Hv v (Str EmptyString) (after w evs))
      as (-> & _ & -> & _).
    split; reflexivity.
  - assert (Ha : valid_aad aad = true).
    { destruct (valid_aad aad) eqn:Ha; [reflexivity|].
      destruct (validateAAD_invalid aad Ha) as [x Hx]. congruence. }
    assert (Hfail : forall e,
              JSON_stringify v = inl e \/
              (JSON_stringify v = inr None /\
               e = Error "Object to be encrypted must be serializable") ->
              fst (codec_encrypt k v aad (after w evs))
                = fst (codec_encrypt k v aad w) /\
              fst (codec_encryptSync k v aad (after w evs))
                = fst (codec_encryptSync k v aad w)).
    { intros e He.
      destruct (serialize_fails k v aad w e Ha He) as [-> ->].
      destruct (serialize_fails k v aad (after w evs) e Ha He) as [-> ->].
      split; reflexivity. }
    destruct (JSON_stringify v) as [x|[s|]] eqn:Hs.
    + apply (Hfail x). now left.
    + rewrite !(codec_encrypt_fst k v s aad _ Ha Hs).
      rewrite !(codec_encryptSync_fst k v s aad _ Ha Hs).
      split; reflexivity.
    + eapply Hfail. right. split; reflexivity.
Qed.

(** X12. Calls share no state but the position in the random source, and
    decryption leaves that untouched: a decrypt or decryptSync run before an
    encrypt or encryptSync, whatever its input and outcome, does not change
    what the seal returns. *)
Theorem decrypt_does_not_affect_encrypt (opts : CryptoOptions) (c : Crypto.t)
    (out : StringOrBuffer) (aad' v aad : JsValue) (w : World) :
  makeCryptoWith opts = inr c ->
  fst (Crypto.encrypt c v aad (snd (Crypto.decrypt c out aad' w)))
    = fst (Crypto.encrypt c v aad w) /\
  fst (Crypto.encrypt c v aad (snd (Crypto.decryptSync c out aad' w)))
    = fst (Crypto.encrypt c v aad w) /\
  fst (Crypto.encryptSync c v aad (snd (Crypto.decrypt c out aad' w)))
    = fst (Crypto.encryptSync c v aad w) /\
  fst (Crypto.encryptSync c v aad (snd (Crypto.decryptSync c out aad' w)))
    = fst (Crypto.encryptSync c v aad w).
Proof.
  intros Hc. destruct (makeCryptoWith_inr _ _ Hc) as (k & _ & ->).
  cbn [Crypto.encrypt Crypto.decrypt Crypto.encryptSync Crypto.decryptSync].
  destruct (world_independent_codec_decrypt k out aad') as (r1 & evs1 & H1).
  destruct (world_independent_codec_decryptSync k out aad') as (r2 & evs2 & H2).
  rewrite H1, H2. cbn [snd].
  destruct (encrypt_ignores_trace k v aad w evs1) as [A1 A2].
  destruct (encrypt_ignores_trace k v aad w evs2) as [B1 B2].
  auto.
Qed.

End Properties.

(** ** The executable runtime satisfies what the codec relies on *)

Module SimFacts.

Lemma pbkdf2_agree (p s : Buffer) (i : N) (l : nat) (d : string) :
  Sim.pbkdf2 p s i l d = inr (Sim.pbkdf2Sync p s i l d).
Proof. reflexivity. Qed.

Lemma pbkdf2Sync_length (p s : Buffer) (i : N) (l : nat) (d : string) :
  List.length (Sim.pbkdf2Sync p s i l d) = l.
Proof. unfold Sim.pbkdf2Sync. now rewrite length_map, length_seq. Qed.

Lemma tag_length (k iv a c : Buffer) : List.length (Sim.tag k iv a c) = 16.
Proof. unfold Sim.tag. now rewrite length_map, length_seq. Qed.

Lemma parse_empty : exists e, Sim.parse EmptyString = inl e.
Proof. eexists. reflexivity. Qed.

Lemma codec_made : makeCryptoWith (node := Sim.runtime) Sim.opts = inr Sim.codec.
Proof. reflexivity. Qed.

Lemma doc_serializable : serializable (node := Sim.runtime) Sim.doc.
Proof. exists Sim.doc_text. split; vm_compute; reflexivity. Qed.

Lemma doc_text_ok :
  JSON_stringify (NodeRuntime := Sim.runtime) Sim.doc = inr (Some Sim.doc_text).
Proof. vm_compute. reflexivity. Qed.

Lemma worldSync_iv : upcoming Sim.worldSync 0 12 = upcoming Sim.world0 64 12.
Proof. vm_compute. reflexivity. Qed.

Lemma worldSync_salt : upcoming Sim.worldSync 12 64 = upcoming Sim.world0 0 64.
Proof. vm_compute. reflexivity. Qed.

Lemma six_bytes : List.length (decoded (Str "AAAAAAAA")) < 92.
Proof. vm_compute. lia. Qed.

Lemma sealed_ok :
  fst (Crypto.encrypt Sim.codec Sim.doc Sim.ctx1 Sim.world0) = inr Sim.sealed.
Proof. vm_compute. reflexivity. Qed.

End SimFacts.

(** ** The claims on the test vector *)

(** C1 on the test vector. *)
Lemma roundtrip_witness :
  (exists e, fst (Crypto.encrypt Sim.codec Sim.doc Sim.ctx1 Sim.world0) = inr e /\
             forall w', fst (Crypto.decrypt Sim.codec (Str e) Sim.ctx1 w')
                        = inr Sim.doc) /\
  (exists e, fst (Crypto.encryptSync Sim.codec Sim.doc Sim.ctx1 Sim.world0) = inr e /\
             forall w', fst (Crypto.decryptSync Sim.codec (Str e) Sim.ctx1 w')
                        = inr Sim.doc).
Proof.
  exact (roundtrip (node := Sim.runtime)
           SimFacts.pbkdf2_agree SimFacts.pbkdf2Sync_length SimFacts.tag_length
           eq_refl eq_refl
           Sim.opts Sim.codec Sim.doc Sim.ctx1 Sim.world0
           SimFacts.codec_made eq_refl SimFacts.doc_serializable).
Defined.






(** C3 on a function as input: the asynchronous form has consumed 64 bytes
    of the random source, the synchronous form none. *)
Lemma not_serializable_effects_witness :
  Crypto.encrypt Sim.codec JsFunction JsUndefined Sim.world0 =
    (inl (Error "Object to be encrypted must be serializable"),
     mkWorld Sim.dice 64 [RandomBytes 64; JsonStringify]) /\
  Crypto.encryptSync Sim.codec JsFunction JsUndefined Sim.world0 =
    (inl (Error "Object to be encrypted must be serializable"),
     mkWorld Sim.dice 0 [JsonStringify]).
Proof.
  exact (not_serializable_effects (node := Sim.runtime)
           Sim.opts Sim.codec JsFunction JsUndefined Sim.world0
           SimFacts.codec_made eq_refl eq_refl).
Defined.

(** C4 on the test vector, with two random sources that yield the same salt
    and IV in the order each form draws them. *)
Lemma sync_async_same_envelope_witness :
  fst (Crypto.encrypt Sim.codec Sim.doc Sim.ctx1 Sim.world0)
  = fst (Crypto.encryptSync Sim.codec Sim.doc Sim.ctx1 Sim.worldSync).
Proof.
  exact (proj1 (sync_async_same_envelope (node := Sim.runtime)
           SimFacts.pbkdf2_agree SimFacts.pbkdf2Sync_length eq_refl
           Sim.opts Sim.codec Sim.doc Sim.ctx1
           (upcoming Sim.world0 0 64) (upcoming Sim.world0 64 12)
           Sim.world0 Sim.worldSync
           SimFacts.codec_made eq_refl eq_refl
           SimFacts.worldSync_iv SimFacts.worldSync_salt)).
Defined.

(** C5 on the test vector: the salt and IV of the envelope are the first 64
    and the next 12 bytes of the random source. *)
Lemma envelope_layout_witness :
  exists (s : string) (salt iv : Buffer),
    JSON_stringify (NodeRuntime := Sim.runtime) Sim.doc = inr (Some s) /\
    (fst (Crypto.encrypt Sim.codec Sim.doc Sim.ctx1 Sim.world0) = inr Sim.sealed /\
     salt = upcoming Sim.world0 0 64 /\ iv = upcoming Sim.world0 64 12 \/
     fst (Crypto.encryptSync Sim.codec Sim.doc Sim.ctx1 Sim.world0)
       = inr Sim.sealed /\
     salt = upcoming Sim.world0 12 64 /\ iv = upcoming Sim.world0 0 12) /\
    let key := derive (node := Sim.runtime) Sim.passphrase salt in
    let text := ciphertext (node := Sim.runtime) key iv s in
    let tag := gcm_tag (NodeRuntime := Sim.runtime) key iv
                 (aad_bytes Sim.ctx1) text in
    List.length salt = 64 /\ List.length iv = 12 /\ List.length tag = 16 /\
    List.length text = String.length s /\
    Sim.sealed = Base64.encode (salt ++ iv ++ tag ++ text) /\
    Base64.decode Sim.sealed = salt ++ iv ++ tag ++ text /\
    slice (Base64.decode Sim.sealed) 0 64 = salt /\
    slice (Base64.decode Sim.sealed) 64 76 = iv /\
    slice (Base64.decode Sim.sealed) 76 92 = tag /\
    slice_from (Base64.decode Sim.sealed) 92 = text.
Proof.
  destruct (envelope_layout (node := Sim.runtime)
              SimFacts.pbkdf2_agree SimFacts.pbkdf2Sync_length
              SimFacts.tag_length eq_refl eq_refl
              Sim.opts Sim.codec Sim.passphrase Sim.doc Sim.ctx1 Sim.world0
              Sim.sealed SimFacts.codec_made eq_refl
              (or_introl SimFacts.sealed_ok))
    as (s & salt & iv & Hs & Hd & H1 & H2 & H3 & H4 & H5 & H6 & H7 & H8 & H9
        & H10 & _).
  exists s, salt, iv.
  exact (conj Hs (conj Hd (conj H1 (conj H2 (conj H3 (conj H4 (conj H5
          (conj H6 (conj H7 (conj H8 (conj H9 H10))))))))))).
Defined.

(** C6 on the test vector. *)
Lemma envelope_length_witness :
  List.length (Base64.decode Sim.sealed)
    = 64 + 12 + 16 + String.length Sim.doc_text /\
  List.length (slice_from (Base64.decode Sim.sealed) 92)
    = String.length Sim.doc_text /\
  String.length Sim.sealed = 4 * ((92 + String.length Sim.doc_text + 2) / 3).
Proof.
  exact (envelope_length (node := Sim.runtime)
           SimFacts.pbkdf2_agree SimFacts.pbkdf2Sync_length SimFacts.tag_length
           eq_refl
           Sim.opts Sim.codec Sim.doc Sim.doc_text Sim.ctx1 Sim.world0 Sim.sealed
           SimFacts.codec_made SimFacts.doc_text_ok
           (or_introl SimFacts.sealed_ok)).
Defined.

(** C7 on a boolean, the empty string and [null] as AAD. *)
Lemma aad_validated_first_witness :
  Crypto.encrypt Sim.codec Sim.doc (JsBoolean true) Sim.world0
    = (inl (Error "AAD must be a string"), Sim.world0) /\
  Crypto.decryptSync Sim.codec (Str Sim.sealed) (JsString EmptyString) Sim.world0
    = (inl (Error "AAD cannot be an empty string"), Sim.world0) /\
  _validateAAD JsNull = inr tt.
Proof.
  destruct (aad_validated_first (node := Sim.runtime) eq_refl Sim.opts Sim.codec
              (JsBoolean true) Sim.doc (Str Sim.sealed) Sim.world0
              SimFacts.codec_made) as (H1 & _ & _).
  destruct (aad_validated_first (node := Sim.runtime) eq_refl Sim.opts Sim.codec
              (JsString EmptyString) Sim.doc (Str Sim.sealed) Sim.world0
              SimFacts.codec_made) as (_ & H2 & _).
  destruct (aad_validated_first (node := Sim.runtime) eq_refl Sim.opts Sim.codec
              JsNull Sim.doc (Str Sim.sealed) Sim.world0
              SimFacts.codec_made) as (_ & _ & H3).
  split; [|split].
  - refine (proj1 (H1 eq_refl _)). discriminate.
  - exact (proj2 (proj2 (proj2 (H2 eq_refl)))).
  - exact (proj1 (H3 eq_refl)).
Defined.

(** C8 (counterexample). An empty byte sequence is an empty passphrase, yet
    construction succeeds with it: a Buffer is truthy whatever its length. *)
Lemma empty_buffer_counterexample :
  missing_or_empty (Some (Buf [])) = true /\
  exists c, makeCryptoWith (node := Sim.runtime)
              {| encryptionKey := Some (Buf []) |} = inr c.
Proof. split; [reflexivity|]. eexists. reflexivity. Qed.

(** C9 on the test vector, in two different worlds. *)
Lemma decrypt_deterministic_witness :
  fst (Crypto.decryptSync Sim.codec (Str Sim.sealed) Sim.ctx1 Sim.world0)
  = fst (Crypto.decryptSync Sim.codec (Str Sim.sealed) Sim.ctx1 Sim.worldSync) /\
  fst (Crypto.decrypt Sim.codec (Str Sim.sealed) Sim.ctx1 Sim.world0)
  = fst (Crypto.decrypt Sim.codec (Str Sim.sealed) Sim.ctx1 Sim.worldSync) /\
  consumed (snd (Crypto.decryptSync Sim.codec (Str Sim.sealed) Sim.ctx1 Sim.world0))
  = consumed Sim.world0 /\
  consumed (snd (Crypto.decrypt Sim.codec (Str Sim.sealed) Sim.ctx1 Sim.world0))
  = consumed Sim.world0.
Proof.
  exact (decrypt_deterministic (node := Sim.runtime)
           Sim.opts Sim.codec (Str Sim.sealed) Sim.ctx1 Sim.world0 Sim.worldSync
           SimFacts.codec_made).
Defined.

(** C10 on an input of six bytes. *)
Lemma short_envelope_rejected_witness :
  let out := Str "AAAAAAAA" in
  let iv := slice (decoded out) 64 76 in
  let tag := slice (decoded out) 76 92 in
  let rejected (r : (exn + JsValue) * World) :=
    exists e evs,
      r = (inl e, after Sim.world0 evs) /\
      (In JsonParse evs ->
         JSON_parse (NodeRuntime := Sim.runtime) EmptyString = inl e /\
         gcm_iv_length_ok (NodeRuntime := Sim.runtime) (List.length iv) = true /\
         gcm_tag_length_ok (NodeRuntime := Sim.runtime) (List.length tag) = true /\
         exists key,
           1 <= List.length tag /\
           tag = firstn (List.length tag)
                   (gcm_tag (NodeRuntime := Sim.runtime) key iv
                      (aad_bytes JsUndefined) [])) in
  rejected (Crypto.decrypt Sim.codec out JsUndefined Sim.world0) /\
  rejected (Crypto.decryptSync Sim.codec out JsUndefined Sim.world0).
Proof.
  exact (short_envelope_rejected (node := Sim.runtime) SimFacts.parse_empty
           Sim.opts Sim.codec (Str "AAAAAAAA") JsUndefined Sim.world0
           SimFacts.codec_made SimFacts.six_bytes).
Defined.

(** C10 (counterexample). An input of 80 bytes that neither the decipher
    setup nor the tag check rejects: its 12-byte IV and 4-byte tag are
    accepted, the tag authenticates the empty ciphertext, and it is
    JSON.parse that throws, on the empty text. *)
Lemma short_tag_counterexample :
  let key := derive (node := Sim.runtime) Sim.passphrase
               (slice Sim.truncated 0 64) in
  let iv := slice Sim.truncated 64 76 in
  let tag := slice Sim.truncated 76 92 in
  List.length (decoded (Buf Sim.truncated)) = 80 /\
  List.length iv = 12 /\ List.length tag = 4 /\
  gcm_iv_length_ok (NodeRuntime := Sim.runtime) (List.length iv) = true /\
  gcm_tag_length_ok (NodeRuntime := Sim.runtime) (List.length tag) = true /\
  tag_matches (node := Sim.runtime) (mkDecipher key iv [] (Some tag) []) = true /\
  Crypto.decrypt Sim.codec (Buf Sim.truncated) JsUndefined Sim.world0 =
    (inl (SyntaxError "Unexpected end of JSON input"),
     after Sim.world0
       [Pbkdf2 (binary_like Sim.passphrase) (slice Sim.truncated 0 64);
        CreateDecipheriv key iv; JsonParse]) /\
  Crypto.decryptSync Sim.codec (Buf Sim.truncated) JsUndefined Sim.world0 =
    (inl (SyntaxError "Unexpected end of JSON input"),
     after Sim.world0
       [Pbkdf2Sync (binary_like Sim.passphrase) (slice Sim.truncated 0 64);
        CreateDecipheriv key iv; JsonParse]).
Proof. vm_compute. repeat split; reflexivity. Qed.

(** X1 on the test vector. *)
Lemma seal_call_sequence_witness :
  consumed (snd (Crypto.encrypt Sim.codec Sim.doc Sim.ctx1 Sim.world0)) = 76 /\
  consumed (snd (Crypto.encryptSync Sim.codec Sim.doc Sim.ctx1 Sim.world0)) = 76.
Proof.
  destruct (seal_call_sequence (node := Sim.runtime)
              SimFacts.pbkdf2_agree SimFacts.pbkdf2Sync_length eq_refl
              Sim.opts Sim.codec Sim.passphrase Sim.doc Sim.doc_text Sim.ctx1
              Sim.world0 SimFacts.codec_made eq_refl eq_refl
              SimFacts.doc_text_ok) as [-> ->].
  split; reflexivity.
Defined.

(** X2 on the test vector. *)
Lemma text_or_bytes_witness :
  fst (Crypto.decrypt Sim.codec (Str Sim.sealed) Sim.ctx1 Sim.world0)
  = fst (Crypto.decrypt Sim.codec (Buf (Base64.decode Sim.sealed)) Sim.ctx1
           Sim.worldSync) /\
  fst (Crypto.decryptSync Sim.codec (Str Sim.sealed) Sim.ctx1 Sim.world0)
  = fst (Crypto.decryptSync Sim.codec (Buf (Base64.decode Sim.sealed)) Sim.ctx1
           Sim.worldSync).
Proof.
  exact (text_or_bytes (node := Sim.runtime)
           Sim.opts Sim.codec Sim.sealed Sim.ctx1 Sim.world0 Sim.worldSync
           SimFacts.codec_made).
Defined.

(** ** Further properties on the test vector *)

Lemma sim_sealed_opens :
  fst (Crypto.decrypt Sim.codec (Str Sim.sealed) Sim.ctx1 Sim.world0)
  = inr Sim.doc.
Proof. vm_compute. reflexivity. Qed.

Lemma sim_sealed_long : 92 <= List.length (decoded (Str Sim.sealed)).
Proof. vm_compute. lia. Qed.

Lemma sim_sealed_plain :
  fst (Crypto.encrypt Sim.codec Sim.doc JsUndefined Sim.world0)
  = inr (Sim.text_of (fst (Crypto.encrypt Sim.codec Sim.doc JsUndefined
                             Sim.world0))).
Proof. vm_compute. reflexivity. Qed.

Lemma sim_sealed_tag :
  slice (decoded (Str Sim.sealed)) 76 92
  = recomputed_tag (node := Sim.runtime) Sim.passphrase
      (decoded (Str Sim.sealed)) Sim.ctx1.
Proof. apply buffer_eqb_eq. vm_compute. reflexivity. Qed.

Lemma sim_failing_made :
  makeCryptoWith (node := Sim.failing) Sim.opts = inr Sim.failingCodec.
Proof. reflexivity. Qed.

Lemma sim_sealed_wf :
  let b := decoded (Str Sim.sealed) in
  utf8_wf
    (xor_stream (gcm_keystream (NodeRuntime := Sim.runtime)
                   (derive (node := Sim.runtime) Sim.passphrase (slice b 0 64))
                   (slice b 64 76)) 0
                (slice_from b 92)) = true.
Proof. vm_compute. reflexivity. Qed.

(** X3 on the test vector. *)
Lemma decrypt_success_authenticated_witness :
  let b := decoded (Str Sim.sealed) in
  valid_aad Sim.ctx1 = true /\
  92 <= List.length b /\
  slice b 76 92 = recomputed_tag (node := Sim.runtime) Sim.passphrase b Sim.ctx1 /\
  JSON_parse (NodeRuntime := Sim.runtime)
    (Buffer_toString_utf8
       (xor_stream (gcm_keystream (NodeRuntime := Sim.runtime)
                      (derive (node := Sim.runtime) Sim.passphrase (slice b 0 64))
                      (slice b 64 76)) 0
                   (slice_from b 92))) = inr Sim.doc.
Proof.
  pose proof (decrypt_success_authenticated (node := Sim.runtime)
           SimFacts.pbkdf2_agree SimFacts.pbkdf2Sync_length SimFacts.tag_length
           eq_refl eq_refl SimFacts.parse_empty
           Sim.opts Sim.codec Sim.passphrase (Str Sim.sealed) Sim.ctx1
           Sim.world0 Sim.doc
           SimFacts.codec_made eq_refl (or_introl sim_sealed_opens)) as H.
  cbv zeta in H. destruct H as (H1 & H2 & H3 & H4).
  cbv zeta. exact (conj H1 (conj H2 (conj H3 (H4 sim_sealed_wf)))).
Defined.

(** X4 on the test vector. *)
Lemma cross_form_roundtrip_witness :
  (exists e, fst (Crypto.encrypt Sim.codec Sim.doc Sim.ctx1 Sim.world0) = inr e /\
     forall w',
       fst (Crypto.decryptSync Sim.codec (Str e) Sim.ctx1 w') = inr Sim.doc /\
       fst (Crypto.decryptSync Sim.codec (Buf (Base64.decode e)) Sim.ctx1 w')
         = inr Sim.doc) /\
  (exists e, fst (Crypto.encryptSync Sim.codec Sim.doc Sim.ctx1 Sim.world0) = inr e /\
     forall w',
       fst (Crypto.decrypt Sim.codec (Str e) Sim.ctx1 w') = inr Sim.doc /\
       fst (Crypto.decrypt Sim.codec (Buf (Base64.decode e)) Sim.ctx1 w')
         = inr Sim.doc).
Proof.
  exact (cross_form_roundtrip (node := Sim.runtime)
           SimFacts.pbkdf2_agree SimFacts.pbkdf2Sync_length SimFacts.tag_length
           eq_refl eq_refl
           Sim.opts Sim.codec Sim.doc Sim.ctx1 Sim.world0
           SimFacts.codec_made eq_refl SimFacts.doc_serializable).
Defined.

(** X5 on the test vector: opened with the AAD it was sealed with, the text
    is parsed. *)
Lemma open_call_sequence_witness :
  let b := decoded (Str Sim.sealed) in
  snd (Crypto.decrypt Sim.codec (Str Sim.sealed) Sim.ctx1 Sim.world0) =
    after Sim.world0
      ([BufferFromBase64] ++
       [Pbkdf2 (binary_like Sim.passphrase) (slice b 0 64);
        CreateDecipheriv
          (derive (node := Sim.runtime) Sim.passphrase (slice b 0 64))
          (slice b 64 76);
        JsonParse]).
Proof.
  exact (proj1 (proj2 (open_call_sequence (node := Sim.runtime)
           SimFacts.pbkdf2_agree SimFacts.pbkdf2Sync_length SimFacts.tag_length
           eq_refl eq_refl
           Sim.opts Sim.codec Sim.passphrase (Str Sim.sealed) Sim.ctx1
           Sim.world0
           SimFacts.codec_made eq_refl eq_refl sim_sealed_long)
           sim_sealed_tag)).
Defined.

(** X8 on the test vector, sealed twice in a row. *)
Lemma successive_seals_fresh_witness :
  exists e1 e2 w1,
    Crypto.encrypt Sim.codec Sim.doc Sim.ctx1 Sim.world0 = (inr e1, w1) /\
    fst (Crypto.encrypt Sim.codec Sim.doc Sim.ctx1 w1) = inr e2 /\
    slice (Base64.decode e1) 0 64 = upcoming Sim.world0 0 64 /\
    slice (Base64.decode e1) 64 76 = upcoming Sim.world0 64 12 /\
    slice (Base64.decode e2) 0 64 = upcoming Sim.world0 76 64 /\
    slice (Base64.decode e2) 64 76 = upcoming Sim.world0 140 12 /\
    (upcoming Sim.world0 0 64 <> upcoming Sim.world0 76 64 \/
     upcoming Sim.world0 64 12 <> upcoming Sim.world0 140 12 -> e1 <> e2).
Proof.
  exact (successive_seals_fresh (node := Sim.runtime)
           SimFacts.pbkdf2_agree SimFacts.pbkdf2Sync_length SimFacts.tag_length
           eq_refl
           Sim.opts Sim.codec Sim.doc Sim.doc Sim.doc_text Sim.doc_text
           Sim.ctx1 Sim.ctx1 Sim.world0
           SimFacts.codec_made eq_refl eq_refl
           SimFacts.doc_text_ok SimFacts.doc_text_ok).
Defined.

(** X9 on a runtime whose asynchronous key derivation always fails. *)
Lemma derivation_error_propagates_witness :
  fst (Crypto.encrypt Sim.failingCodec Sim.doc Sim.ctx1 Sim.world0)
    = inl Sim.pbkdf2_failure /\
  fst (Crypto.decrypt Sim.failingCodec (Str Sim.sealed) Sim.ctx1 Sim.world0)
    = inl Sim.pbkdf2_failure.
Proof.
  destruct (derivation_error_propagates (node := Sim.failing)
              Sim.opts Sim.failingCodec Sim.passphrase Sim.doc Sim.doc_text
              Sim.ctx1 (Str Sim.sealed) Sim.world0 Sim.pbkdf2_failure
              sim_failing_made eq_refl eq_refl SimFacts.doc_text_ok
              (fun _ => eq_refl)) as [-> ->].
  split; reflexivity.
Defined.

(** X10 on the test vector, sealed with the AAD ctx1 and with none. *)
Lemma aad_only_in_tag_witness :
  let e1 := Sim.sealed in
  let e2 := Sim.text_of (fst (Crypto.encrypt Sim.codec Sim.doc JsUndefined
                                Sim.world0)) in
  List.length (Base64.decode e1) = List.length (Base64.decode e2) /\
  slice (Base64.decode e1) 0 64 = slice (Base64.decode e2) 0 64 /\
  slice (Base64.decode e1) 64 76 = slice (Base64.decode e2) 64 76 /\
  slice_from (Base64.decode e1) 92 = slice_from (Base64.decode e2) 92.
Proof.
  exact (aad_only_in_tag (node := Sim.runtime)
           SimFacts.pbkdf2_agree SimFacts.pbkdf2Sync_length SimFacts.tag_length
           eq_refl
           Sim.opts Sim.codec Sim.doc Sim.ctx1 JsUndefined Sim.world0
           Sim.sealed _
           SimFacts.codec_made
           (or_introl (conj SimFacts.sealed_ok sim_sealed_plain))).
Defined.


(** X12 on the test vector: a decrypt before the seal changes nothing. *)
Lemma decrypt_does_not_affect_encrypt_witness :
  fst (Crypto.encrypt Sim.codec Sim.doc Sim.ctx1
         (snd (Crypto.decrypt Sim.codec (Str Sim.sealed) Sim.ctx1 Sim.world0)))
  = fst (Crypto.encrypt Sim.codec Sim.doc Sim.ctx1 Sim.world0).
Proof.
  exact (proj1 (decrypt_does_not_affect_encrypt (node := Sim.runtime)
           SimFacts.pbkdf2_agree SimFacts.pbkdf2Sync_length eq_refl
           Sim.opts Sim.codec (Str Sim.sealed) Sim.ctx1 Sim.doc Sim.ctx1
           Sim.world0 SimFacts.codec_made)).
Defined.
